(** * poverty_hack: recovering the lognormal income distribution

    A shallow embedding of the class [HackParams] of [count_poverty.ipynb]
    and the properties of its three methods [find_upper_limit],
    [find_params] and [count_poverty].

    Numbers.  Python floats are modelled by the real numbers [R]:
    rounding error and overflow are outside the model.  The exceptions of
    the arithmetic are inside it: [math.log] and [math.sqrt] raise
    [ValueError] outside their domain, and [/] on Python numbers raises
    [ZeroDivisionError] on a zero divisor.  What [fsolve] returns is a
    [numpy.float64], and so is every number computed from it: [/] on
    those does not raise, a zero divisor gives an infinity or NaN
    ([np.true_divide]).

    Libraries.  [math.log], [math.sqrt], [np.exp] and [norm.cdf] are the
    real functions they approximate.  The two numerical routines of SciPy,
    [fsolve] and [quad], are not code of the repository: the methods take
    them from a record [Scipy], and the properties that depend on what
    they compute assume the contract [exact]: the root finder returns a
    root whenever one exists; the quadrature returns the integral of the
    Gaussian density up to an upper limit of at most [quad_reach], and a
    value between 0 and the whole integral for every other upper limit.
    [exact_scipy] is a library that meets the contract. *)

From Stdlib Require Import Reals Lra Lia ZArith ClassicalEpsilon.
Local Open Scope R_scope.

(** ** Python results and exceptions *)

(** The exceptions the program can raise. *)
Inductive exn : Type :=
| ValueError        (* "math domain error" of math.log and math.sqrt *)
| ZeroDivisionError (* "float division by zero" *).

Inductive result (A : Type) : Type :=
| Ok (a : A)
| Raise (e : exn).
Arguments Ok {A} a.
Arguments Raise {A} e.

Definition bind {A B : Type} (m : result A) (k : A -> result B) : result B :=
  match m with
  | Ok a => k a
  | Raise e => Raise e
  end.

Notation "x <- m ;; k" := (bind m (fun x => k))
  (at level 61, m at next level, right associativity).
Notation "' pat <- m ;; k" := (bind m (fun x => match x with pat => k end))
  (at level 61, pat pattern, m at next level, right associativity).

(** [x / y] on Python numbers. *)
Definition truediv (x y : R) : result R :=
  if Req_dec_T y 0 then Raise ZeroDivisionError else Ok (x / y).

(** Round half to even, the rule of Python's [round]. *)
Definition round_half_even (y : R) : Z :=
  let n := Int_part y in
  let f := frac_part y in
  if Rlt_dec f (1 / 2) then n
  else if Rlt_dec (1 / 2) f then (n + 1)%Z
  else if Z.even n then n else (n + 1)%Z.

(** [round(x, ndigits)]. *)
Definition round (x : R) (ndigits : nat) : R :=
  IZR (round_half_even (x * 10 ^ ndigits)) / 10 ^ ndigits.

Module math.
Definition pi : R := PI.

Definition log (x : R) : result R :=
  if Rlt_dec 0 x then Ok (ln x) else Raise ValueError.

Definition sqrt (x : R) : result R :=
  if Rle_dec 0 x then Ok (R_sqrt.sqrt x) else Raise ValueError.
End math.

(** A [numpy.float64] as an end point of an integration range: a number,
    [np.inf] with a sign, or NaN. *)
Inductive bound : Type :=
| minus_inf
| at_ (x : R)
| plus_inf
| nan.

Definition bound_opp (b : bound) : bound :=
  match b with
  | minus_inf => plus_inf
  | at_ x => at_ (- x)
  | plus_inf => minus_inf
  | nan => nan
  end.

Module np.
Definition exp (x : R) : R := Rtrigo_def.exp x.
Definition inf : bound := plus_inf.

(** [x / y] on [numpy.float64]: no exception, a division by zero gives an
    infinity with the sign of [x], and [0 / 0] gives NaN. *)
Definition true_divide (x y : R) : bound :=
  if Req_dec_T y 0 then
    if Rlt_dec 0 x then plus_inf
    else if Rlt_dec x 0 then minus_inf
    else nan
  else at_ (x / y).
End np.

(** ** Integrals

    The integral of [f] from [a] to [b], either end possibly infinite, is
    [Lb - La] for a primitive [F] of [f] on the whole line that tends to
    [La] at [a] and to [Lb] at [b]. *)

Definition tends_to (F : R -> R) (b : bound) (L : R) : Prop :=
  match b with
  | minus_inf => forall eps, 0 < eps -> exists M, forall x, x < M -> Rabs (F x - L) < eps
  | at_ x => L = F x
  | plus_inf => forall eps, 0 < eps -> exists M, forall x, M < x -> Rabs (F x - L) < eps
  | nan => False
  end.

Definition is_integral (f : R -> R) (a b : bound) (I : R) : Prop :=
  exists F : R -> R,
    (forall x, derivable_pt_lim F x (f x)) /\
    exists La Lb, tends_to F a La /\ tends_to F b Lb /\ I = Lb - La.

Definition integral (f : R -> R) (a b : bound) : R :=
  epsilon (inhabits 0) (is_integral f a b).

(** The density of the standard normal law without its constant. *)
Definition gauss (x : R) : R := exp (- x ^ 2 / 2).

Module norm.
(** [scipy.stats.norm.cdf]: the standard normal distribution function. *)
Definition cdf (x : R) : R :=
  1 / sqrt (2 * PI) * integral gauss minus_inf (at_ x).
End norm.

(** ** SciPy's numerical routines *)

Record Scipy : Type := {
  (** [fsolve(func, x0, args)] for a scalar [x0]: the one entry of the
      array it returns.  It never raises: when the iteration does not
      converge it warns and returns its last iterate. *)
  fsolve : (R -> R -> R) -> R -> R -> R;
  (** [quad(f, a, b)]: the value and the estimate of the absolute error.
      It never raises on a numerical difficulty either. *)
  quad : (R -> R) -> bound -> bound -> R * R
}.

(** The largest upper limit up to which [quad] is taken to integrate the
    Gaussian density from minus infinity correctly.  Beyond about 20.9 the
    rule QUADPACK uses on an infinite range steps over the bulk of the
    density and returns a value near 0, with a small error estimate. *)
Definition quad_reach : R := 20.

(** What the routines compute when they work: a root whenever there is
    one; the integral of the Gaussian density from minus infinity up to
    every limit within reach; and for every other upper limit (a larger
    number, an infinity, NaN) a value between 0 and the whole integral. *)
Record exact (scipy : Scipy) : Prop := {
  fsolve_root : forall func x0 args,
    (exists x, func x args = 0) -> func (fsolve scipy func x0 args) args = 0;
  quad_integral : forall u I,
    u <= quad_reach ->
    is_integral gauss minus_inf (at_ u) I ->
    fst (quad scipy gauss minus_inf (at_ u)) = I;
  quad_range : forall b,
    0 <= fst (quad scipy gauss minus_inf b) <= sqrt (2 * PI)
}.

(** A library without numerical error.  A NaN limit gives the value 0, as
    it does in SciPy, whose ordering of the two limits reads NaN as the
    smaller one. *)
Definition exact_scipy : Scipy := {|
  fsolve := fun func x0 args => epsilon (inhabits x0) (fun x => func x args = 0);
  quad := fun f a b =>
    match a, b with
    | nan, _ | _, nan => (0, 0)
    | _, _ => (integral f a b, 0)
    end
|}.

(** ** The class HackParams *)

Record HackParams : Type := {
  average_income : R;
  poverty_line : R;
  poverty : R
}.

(** [HackParams(average_income, poverty_line, poverty)]; the divisor is
    the literal 100, so the division cannot raise. *)
Definition __init__ (average_income poverty_line poverty : R) : HackParams :=
  {| average_income := average_income;
     poverty_line := poverty_line;
     poverty := poverty / 100 |}.

(** The local variables of [count_poverty] at its [return]. *)
Record frame : Type := {
  l_mu : R;
  l_sigma : R;
  l_ln_x0 : R;
  l_u : bound;
  l_integral : R;
  l_error : R;
  l_result : R
}.

Section Methods.
Variable scipy : Scipy.

Definition equation (x value : R) : R := norm.cdf x - value.

Definition integrand (x : R) : R := np.exp (- x ^ 2 / 2).

Definition find_upper_limit (self : HackParams) : result R :=
  let upper_limit := fsolve scipy equation 0 (poverty self) in
  Ok upper_limit.

Definition find_params (self : HackParams) : result (R * R) :=
  u_limit <- find_upper_limit self ;;
  q <- truediv (average_income self) (poverty_line self) ;;
  l <- math.log q ;;
  s <- math.sqrt (u_limit ^ 2 + 2 * l) ;;
  let stdev := u_limit + s in
  la <- math.log (average_income self) ;;
  let mu := la - 0.5 * stdev ^ 2 in
  Ok (mu, stdev).

Definition count_poverty_frame (self : HackParams) (new_line : R) : result frame :=
  ' (mu, sigma) <- find_params self ;;
  la <- math.log (average_income self) ;;
  let ln_x0 := la - 0.5 * sigma ^ 2 in
  ln <- math.log new_line ;;
  let u := np.true_divide (ln - ln_x0) sigma in
  let '(integral, error) := quad scipy integrand (bound_opp np.inf) u in
  c <- math.sqrt (2 * math.pi) ;;
  k <- truediv 1 c ;;
  let result := round (k * integral) 4 in
  Ok {| l_mu := mu; l_sigma := sigma; l_ln_x0 := ln_x0; l_u := u;
        l_integral := integral; l_error := error; l_result := result |}.

Definition count_poverty (self : HackParams) (new_line : R) : result R :=
  fr <- count_poverty_frame self new_line ;;
  Ok (l_result fr * 100).
End Methods.

(** The radicand of [find_params] for the quantile [z]. *)
Definition radicand (self : HackParams) (z : R) : R :=
  z ^ 2 + 2 * ln (average_income self / poverty_line self).

(** A library whose quadrature did not converge: it returns the value 0
    with the error estimate 1. *)
Definition unconverged_scipy : Scipy := {|
  fsolve := fsolve exact_scipy;
  quad := fun _ _ _ => (0, 1)
|}.


(** ** Primitives and the Gaussian integral: definitions

    [F] is a primitive of [f] on the whole line. *)
Definition primitive_of (f F : R -> R) : Prop :=
  forall x, derivable_pt_lim F x (f x).

(** The primitive that vanishes at 0. *)
Definition prim0 (f : R -> R) : R -> R :=
  epsilon (inhabits (fun _ : R => 0)) (fun F => primitive_of f F /\ F 0 = 0).

(** [exp (- y^2)] and its primitive. *)
Definition e2 (y : R) : R := exp (- (y * y)).
Definition E2 : R -> R := prim0 e2.

(** The kernel [exp (- t^2 (1 + x^2)) / (1 + x^2)], its first two
    derivatives in [t], and the integrals over [0, 1] of the kernel and of
    its first derivative. *)
Definition cx (x : R) : R := 1 + x * x.
Definition gk (t x : R) : R := exp (- (t * t) * cx x) / cx x.
Definition dgk (t x : R) : R := - (2 * t) * exp (- (t * t) * cx x).
Definition ddgk (t x : R) : R := (4 * (t * t) * cx x - 2) * exp (- (t * t) * cx x).
Definition Gp (t : R) : R := prim0 (gk t) 1.
Definition Dp (t : R) : R := prim0 (dgk t) 1.

(** The primitive of the Gaussian density that vanishes at 0, and half of
    the Gaussian integral. *)
Definition erf_like : R -> R := prim0 gauss.
Definition half_mass : R := sqrt (2 * PI) / 2.

(** ** Polynomial bounds: definitions

    [exp_term k s] is [(- s)^k / k!]; [exp_poly n s] is the Taylor
    polynomial of degree [n] of [exp (- s)]; [gauss_poly n x] is its
    integral from 0 to [x] along [s = x^2 / 2]. *)
Fixpoint exp_term (k : nat) (s : R) : R :=
  match k with
  | O => 1
  | S j => exp_term j s * (- s) / INR (S j)
  end.

Fixpoint exp_poly (n : nat) (s : R) : R :=
  match n with
  | O => 1
  | S m => exp_poly m s + exp_term (S m) s
  end.

Definition gauss_term (k : nat) (x : R) : R :=
  exp_term k (x * x / 2) * x / INR (2 * k + 1).

Fixpoint gauss_poly (n : nat) (x : R) : R :=
  match n with
  | O => gauss_term 0 x
  | S m => gauss_poly m x + gauss_term (S m) x
  end.

(** ** Primitives *)

Lemma dlim_eq (F : R -> R) (x l l' : R) :
  derivable_pt_lim F x l -> l = l' -> derivable_pt_lim F x l'.
Proof. intros H <-. exact H. Qed.

Lemma null_derivative_const (F : R -> R) :
  primitive_of (fun _ => 0) F -> forall x y, F x = F y.
Proof.
  intros H.
  pose (pr := fun x => exist (fun l => derivable_pt_lim F x l) 0 (H x) : derivable_pt F x).
  apply (null_derivative_1 F pr). intros x. reflexivity.
Qed.

Lemma primitive_unique (f F G : R -> R) :
  primitive_of f F -> primitive_of f G -> forall x y, F x - G x = F y - G y.
Proof.
  intros HF HG.
  apply (null_derivative_const (fun x => F x - G x)).
  intros x. apply dlim_eq with (f x - f x); [| ring].
  apply (derivable_pt_lim_minus F G x _ _ (HF x) (HG x)).
Qed.

(** Mean value inequality. *)
Lemma primitive_bound (f F : R -> R) (M a b : R) :
  primitive_of f F ->
  (forall x, Rmin a b <= x <= Rmax a b -> Rabs (f x) <= M) ->
  Rabs (F b - F a) <= M * Rabs (b - a).
Proof.
  intros HF Hb.
  destruct (MVT_abs F f a b (fun c _ => HF c)) as [c [-> Hc]].
  apply Rmult_le_compat_r; [apply Rabs_pos | auto].
Qed.

Lemma primitive_incr (f F : R -> R) (a b : R) :
  primitive_of f F -> (forall x, a <= x <= b -> 0 <= f x) -> a <= b -> F a <= F b.
Proof.
  intros HF Hpos [Hlt | ->]; [| lra].
  destruct (MVT_cor2 F f a b Hlt (fun c _ => HF c)) as [c [Heq Hc]].
  assert (0 <= f c) by (apply Hpos; lra). nra.
Qed.

Lemma primitive_strict_incr (f F : R -> R) (a b : R) :
  primitive_of f F -> (forall x, a <= x <= b -> 0 < f x) -> a < b -> F a < F b.
Proof.
  intros HF Hpos Hlt.
  destruct (MVT_cor2 F f a b Hlt (fun c _ => HF c)) as [c [Heq Hc]].
  assert (0 < f c) by (apply Hpos; lra). nra.
Qed.

(** Every continuous function has a primitive on the whole line. *)
Lemma continuous_primitive (f : R -> R) :
  continuity f -> exists F, primitive_of f F /\ F 0 = 0.
Proof.
  intros Hc.
  assert (Hle : forall n : nat, - (INR n + 1) <= INR n + 1)
    by (intros n; pose proof (pos_INR n); lra).
  pose (g := fun n : nat =>
    proj1_sig (@RiemannInt_P30 f _ _ (Hle n) (fun x _ => Hc x))).
  assert (Hg : forall n, antiderivative f (g n) (- (INR n + 1)) (INR n + 1))
    by (intros n; apply (proj2_sig (@RiemannInt_P30 f _ _ (Hle n) (fun x _ => Hc x)))).
  pose (h := fun n x => g n x - g n 0).
  assert (Hcons : forall n m x, (n <= m)%nat -> - (INR n + 1) <= x <= INR n + 1 ->
                                h n x = h m x).
  { intros n m x Hnm Hx.
    assert (Hnm' : INR n <= INR m) by (apply le_INR; exact Hnm).
    assert (Hm : antiderivative f (g m) (- (INR n + 1)) (INR n + 1)).
    { split; [| apply Hle]. intros y Hy. apply (proj1 (Hg m)). lra. }
    destruct (antiderivative_Ucte f _ _ _ _ (Hg n) Hm) as [c Hcc].
    unfold h. rewrite (Hcc x Hx). rewrite (Hcc 0); [ring |].
    pose proof (pos_INR n). lra. }
  pose (N := fun x => Z.to_nat (up (Rabs x))).
  assert (HN : forall x, Rabs x < INR (N x)).
  { intros x. unfold N. destruct (archimed (Rabs x)) as [Hup _].
    assert (0 < IZR (up (Rabs x))) by (pose proof (Rabs_pos x); lra).
    rewrite INR_IZR_INZ, Z2Nat.id; [lra |].
    apply le_IZR. lra. }
  assert (Hin : forall x, - (INR (N x) + 1) <= x <= INR (N x) + 1).
  { intros x. pose proof (HN x) as Hx. apply Rabs_def2 in Hx. lra. }
  exists (fun x => h (N x) x). split.
  - intros x.
    pose (m := S (N x)).
    assert (Hxm : - INR m < x < INR m).
    { unfold m. rewrite S_INR. pose proof (HN x) as Hx. apply Rabs_def2 in Hx. lra. }
    apply derivable_pt_lim_locally_ext with (f := h m) (a := - INR m) (b := INR m);
      [exact Hxm | |].
    + intros z Hz. destruct (Nat.le_ge_cases (N z) m) as [Hl | Hl].
      * symmetry. apply Hcons; [exact Hl | apply Hin].
      * apply Hcons; [exact Hl | lra].
    + destruct (proj1 (Hg m) x) as [pr Hpr]; [lra |].
      symmetry in Hpr. apply derive_pt_eq_1 in Hpr.
      apply dlim_eq with (f x - 0); [| ring].
      apply (derivable_pt_lim_minus (g m) (fct_cte (g m 0)) x _ _ Hpr).
      apply derivable_pt_lim_const.
  - unfold h. ring.
Qed.

Lemma prim0_spec (f : R -> R) :
  continuity f -> primitive_of f (prim0 f) /\ prim0 f 0 = 0.
Proof.
  intros Hc. unfold prim0. apply epsilon_spec. apply continuous_primitive, Hc.
Qed.

Lemma prim0_unique (f F : R -> R) :
  primitive_of f F -> F 0 = 0 -> forall x, prim0 f x = F x.
Proof.
  intros HF H0 x.
  assert (Hs : primitive_of f (prim0 f) /\ prim0 f 0 = 0).
  { unfold prim0. apply epsilon_spec. exists F. split; assumption. }
  destruct Hs as [Hp Hp0].
  pose proof (primitive_unique f _ _ Hp HF x 0). lra.
Qed.

(** Derivatives of expressions, written as functions of the variable. *)
Section Derivatives.
Variables (f g : R -> R) (x l1 l2 : R).
Hypothesis Hf : derivable_pt_lim f x l1.
Hypothesis Hg : derivable_pt_lim g x l2.

Lemma dl_plus : derivable_pt_lim (fun y => f y + g y) x (l1 + l2).
Proof. exact (derivable_pt_lim_plus f g x l1 l2 Hf Hg). Qed.

Lemma dl_minus : derivable_pt_lim (fun y => f y - g y) x (l1 - l2).
Proof. exact (derivable_pt_lim_minus f g x l1 l2 Hf Hg). Qed.

Lemma dl_mult : derivable_pt_lim (fun y => f y * g y) x (l1 * g x + f x * l2).
Proof. exact (derivable_pt_lim_mult f g x l1 l2 Hf Hg). Qed.

Lemma dl_opp : derivable_pt_lim (fun y => - f y) x (- l1).
Proof. exact (derivable_pt_lim_opp f x l1 Hf). Qed.

Lemma dl_exp : derivable_pt_lim (fun y => exp (f y)) x (exp (f x) * l1).
Proof.
  exact (derivable_pt_lim_comp f exp x l1 _ Hf (derivable_pt_lim_exp (f x))).
Qed.

End Derivatives.

Lemma dl_comp (h f : R -> R) (x l1 l : R) :
  derivable_pt_lim f x l1 -> derivable_pt_lim h (f x) l ->
  derivable_pt_lim (fun y => h (f y)) x (l * l1).
Proof. intros Hf Hh. exact (derivable_pt_lim_comp f h x l1 l Hf Hh). Qed.

Lemma dl_shift (h : R -> R) (t r l : R) :
  derivable_pt_lim h (t + r) l -> derivable_pt_lim (fun s => h (t + s)) r l.
Proof.
  intros Hh. apply dlim_eq with (l * (0 + 1)); [| ring].
  apply (dl_comp h (fun s => t + s)); [| exact Hh].
  apply derivable_pt_lim_plus with (f1 := fun _ => t) (f2 := fun s => s).
  - apply derivable_pt_lim_const.
  - apply derivable_pt_lim_id.
Qed.

Lemma dl_const (c x : R) : derivable_pt_lim (fun _ => c) x 0.
Proof. exact (derivable_pt_lim_const c x). Qed.

Lemma dl_id (x : R) : derivable_pt_lim (fun y => y) x 1.
Proof. exact (derivable_pt_lim_id x). Qed.

Lemma dl_div (f g : R -> R) (x l1 l2 : R) :
  derivable_pt_lim f x l1 -> derivable_pt_lim g x l2 -> g x <> 0 ->
  derivable_pt_lim (fun y => f y / g y) x ((l1 * g x - l2 * f x) / Rsqr (g x)).
Proof. intros Hf Hg Hn. exact (derivable_pt_lim_div f g x l1 l2 Hf Hg Hn). Qed.

Ltac dl_step :=
  first [ apply dl_const | apply dl_id
        | apply dl_plus | apply dl_minus | apply dl_opp
        | apply dl_mult | apply dl_exp ].

Ltac dlim := eapply dlim_eq; [ repeat dl_step | cbv beta ].

(** The same with [leaf] tried first on every subterm. *)
Ltac dlim_with leaf := eapply dlim_eq; [ repeat first [ leaf | dl_step ] | cbv beta ].

Lemma primitive_continuity (f F : R -> R) : primitive_of f F -> continuity F.
Proof.
  intros H x. apply derivable_continuous_pt. exists (f x). apply H.
Qed.

(** The integrand of the error function. *)

Lemma e2_deriv : primitive_of (fun y => e2 y * (- (2 * y))) e2.
Proof.
  intros y. unfold e2. dlim. simpl. ring.
Qed.

Lemma derivable_continuity (f : R -> R) :
  (forall x, exists l, derivable_pt_lim f x l) -> continuity f.
Proof.
  intros H x. destruct (H x) as [l Hl].
  apply derivable_continuous_pt. exists l. exact Hl.
Qed.

(** ** The Gaussian integral *)

Lemma cx_pos (x : R) : 1 <= cx x.
Proof. unfold cx. nra. Qed.

Lemma gk_deriv (x t : R) : derivable_pt_lim (fun s => gk s x) t (dgk t x).
Proof.
  pose proof (cx_pos x) as Hc.
  apply derivable_pt_lim_ext with (f := fun s => exp (- (s * s) * cx x) * / cx x).
  { intros s. reflexivity. }
  unfold dgk. dlim. field. lra.
Qed.

Lemma dgk_deriv (x t : R) : derivable_pt_lim (fun s => dgk s x) t (ddgk t x).
Proof.
  unfold dgk, ddgk. dlim. ring.
Qed.

Lemma exp_neg_le_1 (s : R) : 0 <= s -> exp (- s) <= 1.
Proof.
  intros Hs. rewrite <- exp_0. destruct Hs as [Hs | <-].
  - left. apply exp_increasing. lra.
  - rewrite Ropp_0. lra.
Qed.

Lemma mul_exp_neg_le_1 (s : R) : 0 <= s -> s * exp (- s) <= 1.
Proof.
  intros Hs. rewrite exp_Ropp.
  pose proof (exp_ineq1_le s). pose proof (exp_pos s).
  apply Rmult_le_reg_r with (exp s); [assumption |].
  rewrite Rmult_assoc, Rinv_l; lra.
Qed.

Lemma ddgk_bound (t x : R) : Rabs (ddgk t x) <= 6.
Proof.
  unfold ddgk. pose proof (cx_pos x) as Hc.
  set (s := t * t * cx x).
  assert (Hs : 0 <= s) by (unfold s; nra).
  replace (- (t * t) * cx x) with (- s) by (unfold s; ring).
  replace (4 * (t * t) * cx x) with (4 * s) by (unfold s; ring).
  pose proof (exp_neg_le_1 s Hs). pose proof (mul_exp_neg_le_1 s Hs).
  pose proof (exp_pos (- s)).
  apply Rabs_le. split; nra.
Qed.

Lemma gk_continuity (t : R) : continuity (gk t).
Proof.
  apply derivable_continuity. intros x. eexists. unfold gk, cx.
  apply dl_div; [repeat dl_step | repeat dl_step | nra].
Qed.

Lemma dgk_continuity (t : R) : continuity (dgk t).
Proof.
  apply derivable_continuity. intros x. eexists. unfold dgk, cx.
  repeat dl_step.
Qed.

Lemma dgk_lipschitz (t s x : R) : Rabs (dgk (t + s) x - dgk t x) <= 6 * Rabs s.
Proof.
  pose proof (primitive_bound (fun r => ddgk (t + r) x) (fun r => dgk (t + r) x) 6 0 s) as H.
  cbv beta in H. rewrite Rplus_0_r, Rminus_0_r in H. apply H.
  - intros r. apply (dl_shift (fun u => dgk u x)). apply dgk_deriv.
  - intros r _. apply ddgk_bound.
Qed.

Lemma gk_taylor (t h x : R) :
  Rabs (gk (t + h) x - gk t x - h * dgk t x) <= 6 * Rabs h * Rabs h.
Proof.
  pose proof (primitive_bound (fun s => dgk (t + s) x - dgk t x)
                (fun s => gk (t + s) x - gk t x - s * dgk t x)
                (6 * Rabs h) 0 h) as H.
  cbv beta in H. rewrite Rplus_0_r, Rminus_0_r in H.
  replace (gk t x - gk t x - 0 * dgk t x) with 0 in H by ring.
  rewrite Rminus_0_r in H. apply H.
  - intros s.
    dlim_with ltac:(apply (dl_shift (fun u => gk u x)); apply gk_deriv). ring.
  - intros s Hs. apply Rle_trans with (6 * Rabs s); [apply dgk_lipschitz |].
    apply Rmult_le_compat_l; [lra |].
    unfold Rmin, Rmax in Hs. unfold Rabs.
    destruct (Rle_dec 0 h), (Rcase_abs s), (Rcase_abs h); lra.
Qed.

Lemma Gp_taylor (t h : R) : Rabs (Gp (t + h) - Gp t - h * Dp t) <= 6 * Rabs h * Rabs h.
Proof.
  destruct (prim0_spec _ (gk_continuity (t + h))) as [H1 H10].
  destruct (prim0_spec _ (gk_continuity t)) as [H2 H20].
  destruct (prim0_spec _ (dgk_continuity t)) as [H3 H30].
  pose proof (primitive_bound (fun x => gk (t + h) x - gk t x - h * dgk t x)
                (fun x => prim0 (gk (t + h)) x - prim0 (gk t) x - h * prim0 (dgk t) x)
                (6 * Rabs h * Rabs h) 0 1) as H.
  cbv beta in H. rewrite H10, H20, H30 in H.
  replace (1 - 0) with 1 in H by ring. rewrite Rabs_R1, Rmult_1_r in H.
  replace (0 - 0 - h * 0) with 0 in H by ring. rewrite Rminus_0_r in H.
  unfold Gp, Dp. apply H.
  - intros x. dlim_with ltac:(first [apply H1 | apply H2 | apply H3]). ring.
  - intros x _. apply gk_taylor.
Qed.

Lemma Gp_deriv (t : R) : derivable_pt_lim Gp t (Dp t).
Proof.
  intros eps Heps.
  assert (Hd : 0 < eps / 7) by lra.
  exists (mkposreal _ Hd). simpl. intros h Hh Hlt.
  replace ((Gp (t + h) - Gp t) / h - Dp t) with ((Gp (t + h) - Gp t - h * Dp t) / h)
    by (field; exact Hh).
  unfold Rdiv. rewrite Rabs_mult, Rabs_inv.
  pose proof (Gp_taylor t h) as HT.
  assert (Hp : 0 < Rabs h) by (apply Rabs_pos_lt; exact Hh).
  apply Rle_lt_trans with (6 * Rabs h * Rabs h * / Rabs h).
  - apply Rmult_le_compat_r; [left; apply Rinv_0_lt_compat; exact Hp | exact HT].
  - rewrite Rmult_assoc, Rinv_r by lra. lra.
Qed.

Lemma e2_continuity : continuity e2.
Proof.
  apply derivable_continuity. intros y. eexists. apply e2_deriv.
Qed.

Lemma E2_deriv : primitive_of e2 E2.
Proof. apply prim0_spec, e2_continuity. Qed.

Lemma E2_0 : E2 0 = 0.
Proof. apply prim0_spec, e2_continuity. Qed.

Lemma e2_pos (y : R) : 0 < e2 y.
Proof. apply exp_pos. Qed.

Lemma dgk_factor (t x : R) : dgk t x = - (2 * e2 t) * (e2 (t * x) * t).
Proof.
  unfold dgk, e2, cx.
  replace (- (t * t) * (1 + x * x)) with (- (t * t) + - (t * x * (t * x))) by ring.
  rewrite exp_plus. ring.
Qed.

Lemma Dp_eq (t : R) : Dp t = - (2 * e2 t) * E2 t.
Proof.
  unfold Dp.
  rewrite (prim0_unique (dgk t) (fun x => - (2 * e2 t) * E2 (t * x))).
  - rewrite Rmult_1_r. reflexivity.
  - intros x. rewrite dgk_factor.
    dlim_with ltac:(apply (dl_comp E2 (fun y => t * y)); [| apply E2_deriv]).
    ring.
  - cbv beta. rewrite Rmult_0_r, E2_0. ring.
Qed.

Lemma Gp_0 : Gp 0 = PI / 4.
Proof.
  unfold Gp. rewrite (prim0_unique (gk 0) atan).
  - apply atan_1.
  - intros x. apply dlim_eq with (/ (1 + x ^ 2)); [apply derivable_pt_lim_atan |].
    unfold gk, cx. replace (- (0 * 0) * (1 + x * x)) with 0 by ring.
    rewrite exp_0. field. nra.
  - apply atan_0.
Qed.

Lemma E2_Gp (t : R) : E2 t * E2 t + Gp t = PI / 4.
Proof.
  rewrite <- Gp_0.
  replace (Gp 0) with (E2 0 * E2 0 + Gp 0) by (rewrite E2_0; ring).
  apply (null_derivative_const (fun s => E2 s * E2 s + Gp s)).
  intros s.
  dlim_with ltac:(first [apply E2_deriv | apply Gp_deriv]).
  rewrite Dp_eq. ring.
Qed.

Lemma gk_bounds (t x : R) : 0 <= gk t x <= e2 t.
Proof.
  unfold gk, e2. pose proof (cx_pos x) as Hc.
  pose proof (exp_pos (- (t * t) * cx x)) as Hp.
  assert (Hle : exp (- (t * t) * cx x) <= exp (- (t * t))).
  { destruct (Req_dec (t * t * (cx x - 1)) 0) as [Hz | Hz].
    - right. f_equal. nra.
    - left. apply exp_increasing. nra. }
  assert (Hi : 0 < / cx x <= 1).
  { split; [apply Rinv_0_lt_compat; lra |].
    rewrite <- Rinv_1. apply Rinv_le_contravar; lra. }
  unfold Rdiv. split; nra.
Qed.

Lemma Gp_bounds (t : R) : 0 <= Gp t <= e2 t.
Proof.
  destruct (prim0_spec _ (gk_continuity t)) as [H1 H10].
  unfold Gp. split.
  - rewrite <- H10. apply (primitive_incr (gk t)); [exact H1 | | lra].
    intros x _. apply gk_bounds.
  - pose proof (primitive_incr (fun x => e2 t - gk t x)
                  (fun x => e2 t * x - prim0 (gk t) x) 0 1) as H.
    cbv beta in H. rewrite H10 in H.
    assert (e2 t * 0 - 0 <= e2 t * 1 - prim0 (gk t) 1); [| lra].
    apply H; [| | lra].
    + intros x. dlim_with ltac:(apply H1). ring.
    + intros x _. pose proof (gk_bounds t x). lra.
Qed.

Lemma E2_nonneg (t : R) : 0 <= t -> 0 <= E2 t.
Proof.
  intros Ht. rewrite <- E2_0.
  apply (primitive_incr e2); [apply E2_deriv | | exact Ht].
  intros x _. left. apply e2_pos.
Qed.

Lemma e2_small (t : R) : 0 < t -> e2 t < / (t * t).
Proof.
  intros Ht. unfold e2. rewrite exp_Ropp.
  apply Rinv_lt_contravar.
  - apply Rmult_lt_0_compat; [nra | apply exp_pos].
  - pose proof (exp_ineq1_le (t * t)). lra.
Qed.

Lemma half_sqrt_PI : 0 < sqrt PI / 2 /\ sqrt PI / 2 * (sqrt PI / 2) = PI / 4.
Proof.
  pose proof PI_RGT_0 as HPI.
  pose proof (sqrt_lt_R0 PI HPI).
  pose proof (sqrt_sqrt PI (Rlt_le _ _ HPI)).
  split; nra.
Qed.

Lemma E2_upper (t : R) : 0 <= t -> E2 t <= sqrt PI / 2.
Proof.
  intros Ht. destruct half_sqrt_PI as [HS HSS].
  pose proof (E2_nonneg t Ht). pose proof (E2_Gp t). pose proof (Gp_bounds t).
  nra.
Qed.

Lemma E2_lower (t : R) : 0 <= t -> sqrt PI / 2 - e2 t / (sqrt PI / 2) <= E2 t.
Proof.
  intros Ht. destruct half_sqrt_PI as [HS HSS].
  pose proof (E2_nonneg t Ht). pose proof (E2_Gp t). pose proof (Gp_bounds t).
  set (S := sqrt PI / 2) in *.
  assert (Hq : e2 t / S * S = e2 t) by (field; lra).
  assert (0 <= e2 t / S).
  { apply Rmult_le_pos; [left; apply e2_pos | left; apply Rinv_0_lt_compat; lra]. }
  nra.
Qed.

Lemma E2_limit :
  forall eps, 0 < eps -> exists M, forall t, M < t -> Rabs (E2 t - sqrt PI / 2) < eps.
Proof.
  intros eps Heps. destruct half_sqrt_PI as [HS HSS].
  set (S := sqrt PI / 2) in *.
  exists (Rmax 1 (/ (eps * S))). intros t Ht.
  assert (H1 : 1 < t) by (eapply Rle_lt_trans; [apply Rmax_l | exact Ht]).
  assert (H2 : / (eps * S) < t) by (eapply Rle_lt_trans; [apply Rmax_r | exact Ht]).
  assert (Ht0 : 0 <= t) by lra.
  pose proof (E2_upper t Ht0) as Hu. pose proof (E2_lower t Ht0) as Hl.
  fold S in Hu, Hl.
  assert (He : e2 t / S < eps).
  { pose proof (e2_small t ltac:(lra)) as Hs.
    assert (HeS : 0 < eps * S) by nra.
    assert (Hlt : / (t * t) < eps * S).
    { rewrite <- (Rinv_inv (eps * S)). apply Rinv_lt_contravar.
      - apply Rmult_lt_0_compat; [apply Rinv_0_lt_compat; lra | nra].
      - pose proof (Rinv_0_lt_compat _ HeS). nra. }
    apply Rmult_lt_reg_r with S; [lra |].
    unfold Rdiv. rewrite Rmult_assoc, Rinv_l by lra. lra. }
  apply Rabs_def1; lra.
Qed.

(** ** The primitive of the Gaussian density *)

Lemma sqrt2_facts : 0 < sqrt 2 /\ sqrt 2 * sqrt 2 = 2.
Proof.
  split; [apply sqrt_lt_R0; lra | apply sqrt_sqrt; lra].
Qed.

Lemma gauss_e2 (x : R) : gauss x = e2 (x / sqrt 2).
Proof.
  destruct sqrt2_facts as [H2 H22].
  unfold gauss, e2. apply (f_equal exp).
  replace (x / sqrt 2 * (x / sqrt 2)) with (x * x / (sqrt 2 * sqrt 2)) by (field; lra).
  rewrite H22. simpl. field.
Qed.

Lemma gauss_pos (x : R) : 0 < gauss x.
Proof. apply exp_pos. Qed.

Lemma gauss_even (x : R) : gauss (- x) = gauss x.
Proof. unfold gauss. apply (f_equal exp). simpl. field. Qed.

Lemma scaled_E2_deriv : primitive_of gauss (fun x => sqrt 2 * E2 (x / sqrt 2)).
Proof.
  destruct sqrt2_facts as [H2 H22].
  intros x. rewrite gauss_e2.
  apply derivable_pt_lim_ext with (f := fun y => sqrt 2 * E2 (y * / sqrt 2));
    [intros z; reflexivity |].
  dlim_with ltac:(apply (dl_comp E2 (fun y => y * / sqrt 2)); [| apply E2_deriv]).
  unfold Rdiv. field. lra.
Qed.

Lemma erf_like_eq (x : R) : erf_like x = sqrt 2 * E2 (x / sqrt 2).
Proof.
  apply (prim0_unique gauss (fun x => sqrt 2 * E2 (x / sqrt 2))).
  - apply scaled_E2_deriv.
  - cbv beta. unfold Rdiv. rewrite Rmult_0_l, E2_0. ring.
Qed.

Lemma erf_like_deriv : primitive_of gauss erf_like.
Proof.
  intros x. apply derivable_pt_lim_ext with (f := fun x => sqrt 2 * E2 (x / sqrt 2)).
  - intros z. symmetry. apply erf_like_eq.
  - apply scaled_E2_deriv.
Qed.

Lemma erf_like_0 : erf_like 0 = 0.
Proof. rewrite erf_like_eq. unfold Rdiv. rewrite Rmult_0_l, E2_0. ring. Qed.

Lemma erf_like_odd (x : R) : erf_like (- x) = - erf_like x.
Proof.
  assert (H : forall y, erf_like y = - erf_like (- y)).
  { apply (prim0_unique gauss (fun y => - erf_like (- y))).
    - intros y. rewrite <- (gauss_even y).
      dlim_with ltac:(apply (dl_comp erf_like (fun z => - z)); [| apply erf_like_deriv]).
      ring.
    - cbv beta. rewrite Ropp_0, erf_like_0. ring. }
  rewrite (H x). ring.
Qed.

Lemma erf_like_incr (x y : R) : x < y -> erf_like x < erf_like y.
Proof.
  intros Hxy. apply (primitive_strict_incr gauss); [apply erf_like_deriv | | exact Hxy].
  intros z _. apply gauss_pos.
Qed.

Lemma half_mass_eq : half_mass = sqrt 2 * (sqrt PI / 2).
Proof.
  unfold half_mass. rewrite sqrt_mult; [field | lra | left; apply PI_RGT_0].
Qed.

Lemma half_mass_pos : 0 < half_mass.
Proof.
  unfold half_mass. pose proof PI_RGT_0.
  assert (0 < sqrt (2 * PI)) by (apply sqrt_lt_R0; lra). lra.
Qed.

Lemma erf_like_limit : tends_to erf_like plus_inf half_mass.
Proof.
  destruct sqrt2_facts as [H2 H22].
  intros eps Heps.
  destruct (E2_limit (eps / sqrt 2)) as [M HM].
  { apply Rdiv_lt_0_compat; lra. }
  exists (M * sqrt 2). intros x Hx.
  rewrite erf_like_eq, half_mass_eq, <- Rmult_minus_distr_l, Rabs_mult.
  rewrite (Rabs_pos_eq (sqrt 2)) by lra.
  assert (Hlt : M < x / sqrt 2).
  { apply Rmult_lt_reg_r with (sqrt 2); [lra |].
    unfold Rdiv. rewrite Rmult_assoc, Rinv_l by lra. lra. }
  specialize (HM _ Hlt).
  apply Rmult_lt_compat_l with (r := sqrt 2) in HM; [| lra].
  replace (sqrt 2 * (eps / sqrt 2)) with eps in HM by (field; lra).
  exact HM.
Qed.

Lemma erf_like_limit_neg : tends_to erf_like minus_inf (- half_mass).
Proof.
  intros eps Heps. destruct (erf_like_limit eps Heps) as [M HM].
  exists (- M). intros x Hx.
  replace (erf_like x - - half_mass) with (- (erf_like (- x) - half_mass))
    by (rewrite erf_like_odd; ring).
  rewrite Rabs_Ropp. apply HM. lra.
Qed.

Lemma erf_like_upper (x : R) : erf_like x < half_mass.
Proof.
  apply Rlt_le_trans with (erf_like (x + 1)); [apply erf_like_incr; lra |].
  destruct (Rle_or_lt half_mass (erf_like (x + 1))) as [Hge | Hlt]; [| lra].
  destruct Hge as [Hgt | Heq]; [| lra].
  exfalso.
  destruct (erf_like_limit (erf_like (x + 1) - half_mass)) as [M HM]; [lra |].
  set (y := Rmax (x + 2) (M + 1)).
  assert (Hy1 : x + 1 < y) by (unfold y; pose proof (Rmax_l (x + 2) (M + 1)); lra).
  assert (Hy2 : M < y) by (unfold y; pose proof (Rmax_r (x + 2) (M + 1)); lra).
  pose proof (erf_like_incr _ _ Hy1). specialize (HM y Hy2).
  apply Rabs_def2 in HM. lra.
Qed.

Lemma erf_like_lower (x : R) : - half_mass < erf_like x.
Proof.
  pose proof (erf_like_upper (- x)) as H. rewrite erf_like_odd in H. lra.
Qed.

(** ** Integrals are unique *)

Lemma tends_to_unique (F : R -> R) (b : bound) (L1 L2 : R) :
  tends_to F b L1 -> tends_to F b L2 -> L1 = L2.
Proof.
  destruct b as [| x | |]; simpl; intros H1 H2; [| congruence | | contradiction];
    destruct (Req_dec L1 L2) as [Heq | Hne]; try exact Heq; exfalso;
    assert (He : 0 < Rabs (L1 - L2) / 2)
      by (assert (0 < Rabs (L1 - L2)) by (apply Rabs_pos_lt; lra); lra);
    destruct (H1 _ He) as [M1 HM1]; destruct (H2 _ He) as [M2 HM2].
  - set (y := Rmin M1 M2 - 1).
    assert (y < M1) by (unfold y; pose proof (Rmin_l M1 M2); lra).
    assert (y < M2) by (unfold y; pose proof (Rmin_r M1 M2); lra).
    specialize (HM1 y ltac:(assumption)). specialize (HM2 y ltac:(assumption)).
    revert HM1 HM2 He. unfold Rabs.
    destruct (Rcase_abs (F y - L1)), (Rcase_abs (F y - L2)), (Rcase_abs (L1 - L2)); lra.
  - set (y := Rmax M1 M2 + 1).
    assert (M1 < y) by (unfold y; pose proof (Rmax_l M1 M2); lra).
    assert (M2 < y) by (unfold y; pose proof (Rmax_r M1 M2); lra).
    specialize (HM1 y ltac:(assumption)). specialize (HM2 y ltac:(assumption)).
    revert HM1 HM2 He. unfold Rabs.
    destruct (Rcase_abs (F y - L1)), (Rcase_abs (F y - L2)), (Rcase_abs (L1 - L2)); lra.
Qed.

Lemma tends_to_shift (F G : R -> R) (c : R) (b : bound) (L : R) :
  (forall x, F x = G x + c) -> tends_to F b L -> tends_to G b (L - c).
Proof.
  intros HFG. destruct b as [| x | |]; simpl.
  - intros H eps He. destruct (H eps He) as [M HM]. exists M. intros y Hy.
    replace (G y - (L - c)) with (F y - L) by (rewrite HFG; ring). auto.
  - intros ->. rewrite HFG. ring.
  - intros H eps He. destruct (H eps He) as [M HM]. exists M. intros y Hy.
    replace (G y - (L - c)) with (F y - L) by (rewrite HFG; ring). auto.
  - intros H. exact H.
Qed.

Lemma is_integral_unique (f : R -> R) (a b : bound) (I1 I2 : R) :
  is_integral f a b I1 -> is_integral f a b I2 -> I1 = I2.
Proof.
  intros [F [HF [La [Lb [Ha [Hb ->]]]]]] [G [HG [Ma [Mb [Ha' [Hb' ->]]]]]].
  assert (Hc : forall x, F x = G x + (F 0 - G 0)).
  { intros x. pose proof (primitive_unique f F G HF HG x 0). lra. }
  pose proof (tends_to_unique _ _ _ _ (tends_to_shift F G _ a La Hc Ha) Ha').
  pose proof (tends_to_unique _ _ _ _ (tends_to_shift F G _ b Lb Hc Hb) Hb').
  lra.
Qed.

Lemma integral_eq (f : R -> R) (a b : bound) (I : R) :
  is_integral f a b I -> integral f a b = I.
Proof.
  intros H. apply is_integral_unique with f a b; [| exact H].
  unfold integral. apply epsilon_spec. exists I. exact H.
Qed.

(** ** The normal distribution function *)

Lemma gauss_integral (x : R) :
  is_integral gauss minus_inf (at_ x) (erf_like x + half_mass).
Proof.
  exists erf_like. split; [apply erf_like_deriv |].
  exists (- half_mass), (erf_like x). split; [apply erf_like_limit_neg |].
  split; [reflexivity | ring].
Qed.

Lemma sqrt_2PI_pos : 0 < sqrt (2 * PI).
Proof. pose proof PI_RGT_0. apply sqrt_lt_R0. lra. Qed.

Lemma cdf_eq (x : R) : norm.cdf x = 1 / 2 + erf_like x / sqrt (2 * PI).
Proof.
  unfold norm.cdf. rewrite (integral_eq _ _ _ _ (gauss_integral x)).
  unfold half_mass. pose proof sqrt_2PI_pos. field. lra.
Qed.

Lemma cdf_0 : norm.cdf 0 = 1 / 2.
Proof. rewrite cdf_eq, erf_like_0. unfold Rdiv. ring. Qed.

Lemma cdf_incr (x y : R) : x < y -> norm.cdf x < norm.cdf y.
Proof.
  intros Hxy. rewrite !cdf_eq. pose proof sqrt_2PI_pos as Hs.
  pose proof (erf_like_incr x y Hxy).
  assert (0 < / sqrt (2 * PI)) by (apply Rinv_0_lt_compat; exact Hs).
  unfold Rdiv. nra.
Qed.

Lemma cdf_le (x y : R) : x <= y -> norm.cdf x <= norm.cdf y.
Proof.
  intros [Hlt | ->]; [left; apply cdf_incr; exact Hlt | lra].
Qed.

Lemma cdf_inj (x y : R) : norm.cdf x = norm.cdf y -> x = y.
Proof.
  intros H. destruct (Rtotal_order x y) as [Hlt | [Heq | Hgt]]; [| exact Heq |].
  - pose proof (cdf_incr _ _ Hlt). lra.
  - pose proof (cdf_incr _ _ Hgt). lra.
Qed.

Lemma cdf_bounds (x : R) : 0 < norm.cdf x < 1.
Proof.
  rewrite cdf_eq. pose proof sqrt_2PI_pos as Hs.
  pose proof (erf_like_upper x) as Hu. pose proof (erf_like_lower x) as Hl.
  unfold half_mass in Hu, Hl.
  assert (Hq : erf_like x / sqrt (2 * PI) * sqrt (2 * PI) = erf_like x) by (field; lra).
  split; nra.
Qed.

Lemma cdf_deriv (x : R) : derivable_pt_lim norm.cdf x (gauss x / sqrt (2 * PI)).
Proof.
  apply derivable_pt_lim_ext with (f := fun y => 1 / 2 + erf_like y * / sqrt (2 * PI)).
  { intros z. symmetry. apply cdf_eq. }
  dlim_with ltac:(apply erf_like_deriv). unfold Rdiv. ring.
Qed.

Lemma cdf_continuity : continuity norm.cdf.
Proof.
  apply derivable_continuity. intros x. eexists. apply cdf_deriv.
Qed.

Lemma cdf_limit_neg : tends_to norm.cdf minus_inf 0.
Proof.
  pose proof sqrt_2PI_pos as Hs.
  intros eps He. destruct (erf_like_limit_neg (eps * sqrt (2 * PI))) as [M HM]; [nra |].
  exists M. intros x Hx. specialize (HM x Hx). rewrite cdf_eq.
  replace (1 / 2 + erf_like x / sqrt (2 * PI) - 0)
    with ((erf_like x - - half_mass) * / sqrt (2 * PI)) by (unfold half_mass; field; lra).
  rewrite Rabs_mult, (Rabs_pos_eq (/ sqrt (2 * PI)))
    by (left; apply Rinv_0_lt_compat; exact Hs).
  apply Rmult_lt_reg_r with (sqrt (2 * PI)); [exact Hs |].
  rewrite Rmult_assoc, Rinv_l by lra. lra.
Qed.

Lemma cdf_limit_pos : tends_to norm.cdf plus_inf 1.
Proof.
  pose proof sqrt_2PI_pos as Hs.
  intros eps He. destruct (erf_like_limit (eps * sqrt (2 * PI))) as [M HM]; [nra |].
  exists M. intros x Hx. specialize (HM x Hx). rewrite cdf_eq.
  replace (1 / 2 + erf_like x / sqrt (2 * PI) - 1)
    with ((erf_like x - half_mass) * / sqrt (2 * PI)) by (unfold half_mass; field; lra).
  rewrite Rabs_mult, (Rabs_pos_eq (/ sqrt (2 * PI)))
    by (left; apply Rinv_0_lt_compat; exact Hs).
  apply Rmult_lt_reg_r with (sqrt (2 * PI)); [exact Hs |].
  rewrite Rmult_assoc, Rinv_l by lra. lra.
Qed.

(** Every probability strictly between 0 and 1 has a quantile. *)
Lemma cdf_quantile (p : R) : 0 < p < 1 -> exists z, norm.cdf z = p.
Proof.
  intros [Hp0 Hp1].
  destruct (cdf_limit_neg p Hp0) as [M1 HM1].
  destruct (cdf_limit_pos (1 - p) ltac:(lra)) as [M2 HM2].
  set (x := Rmin M1 M2 - 1). set (y := Rmax M1 M2 + 1).
  assert (Hx : x < M1) by (unfold x; pose proof (Rmin_l M1 M2); lra).
  assert (Hy : M2 < y) by (unfold y; pose proof (Rmax_r M1 M2); lra).
  assert (Hxy : x <= y).
  { unfold x, y. pose proof (Rmin_l M1 M2). pose proof (Rmax_l M1 M2). lra. }
  specialize (HM1 x Hx). specialize (HM2 y Hy).
  apply Rabs_def2 in HM1. apply Rabs_def2 in HM2.
  destruct (IVT_cor (fun z => norm.cdf z - p) x y) as [z [_ Hz]].
  - intros z. apply derivable_continuous_pt. eexists.
    dlim_with ltac:(apply cdf_deriv). reflexivity.
  - exact Hxy.
  - cbv beta. nra.
  - exists z. cbv beta in Hz. lra.
Qed.

Lemma gauss_total_integral :
  is_integral gauss minus_inf plus_inf (sqrt (2 * PI)).
Proof.
  exists erf_like. split; [exact erf_like_deriv |].
  exists (- half_mass), half_mass.
  split; [exact erf_like_limit_neg |]. split; [exact erf_like_limit |].
  unfold half_mass. field.
Qed.

Lemma gauss_empty_integral : is_integral gauss minus_inf minus_inf 0.
Proof.
  exists erf_like. split; [exact erf_like_deriv |].
  exists (- half_mass), (- half_mass).
  split; [exact erf_like_limit_neg |]. split; [exact erf_like_limit_neg | ring].
Qed.

Lemma exact_scipy_exact : exact exact_scipy.
Proof.
  split.
  - intros func x0 args Hex. simpl.
    apply (epsilon_spec (inhabits x0) (fun x => func x args = 0)). exact Hex.
  - intros u I _ HI. simpl. apply integral_eq. exact HI.
  - pose proof sqrt_2PI_pos as Hs. intros [| u | |]; simpl.
    + rewrite (integral_eq _ _ _ _ gauss_empty_integral). lra.
    + rewrite (integral_eq _ _ _ _ (gauss_integral u)).
      pose proof (erf_like_upper u) as Hu. pose proof (erf_like_lower u) as Hl.
      unfold half_mass in *. lra.
    + rewrite (integral_eq _ _ _ _ gauss_total_integral). lra.
    + lra.
Qed.

(** ** Rounding *)

Lemma abs_le_inv (a b : R) : Rabs a <= b -> - b <= a <= b.
Proof. unfold Rabs. destruct (Rcase_abs a); lra. Qed.

Lemma Int_part_bounds (y : R) : IZR (Int_part y) <= y < IZR (Int_part y) + 1.
Proof. destruct (base_Int_part y). lra. Qed.

Lemma frac_part_eq (y : R) : frac_part y = y - IZR (Int_part y).
Proof. reflexivity. Qed.


Lemma round_half_even_cases (y : R) :
  (round_half_even y = Int_part y /\ frac_part y <= 1 / 2) \/
  (round_half_even y = (Int_part y + 1)%Z /\ 1 / 2 <= frac_part y).
Proof.
  unfold round_half_even. cbv zeta.
  destruct (Rlt_dec (frac_part y) (1 / 2)); [left; split; [reflexivity | lra] |].
  destruct (Rlt_dec (1 / 2) (frac_part y)); [right; split; [reflexivity | lra] |].
  destruct (Z.even (Int_part y)); [left | right]; split; try reflexivity; lra.
Qed.

Lemma round_half_even_near (y : R) : Rabs (IZR (round_half_even y) - y) <= 1 / 2.
Proof.
  pose proof (frac_part_eq y) as Hf. pose proof (Int_part_bounds y) as Hb.
  destruct (round_half_even_cases y) as [[-> H] | [-> H]];
    [| rewrite plus_IZR]; apply Rabs_le; lra.
Qed.


Lemma round_half_even_IZR (k : Z) : round_half_even (IZR k) = k.
Proof.
  assert (Hk : Int_part (IZR k) = k) by (symmetry; apply Int_part_spec; lra).
  pose proof (frac_part_eq (IZR k)) as Hf. rewrite Hk in Hf.
  unfold round_half_even. cbv zeta. rewrite Hk.
  destruct (Rlt_dec (frac_part (IZR k)) (1 / 2)); [reflexivity | lra].
Qed.

Lemma pow10_pos (n : nat) : 0 < 10 ^ n.
Proof. apply pow_lt. lra. Qed.


Lemma round_near (x : R) (n : nat) : Rabs (round x n - x) <= / 2 / 10 ^ n.
Proof.
  unfold round. pose proof (pow10_pos n) as Hp.
  pose proof (round_half_even_near (x * 10 ^ n)) as H.
  replace (IZR (round_half_even (x * 10 ^ n)) / 10 ^ n - x)
    with ((IZR (round_half_even (x * 10 ^ n)) - x * 10 ^ n) * / 10 ^ n)
    by (field; lra).
  rewrite Rabs_mult, (Rabs_pos_eq (/ 10 ^ n))
    by (left; apply Rinv_0_lt_compat; exact Hp).
  unfold Rdiv. apply Rmult_le_compat_r; [left; apply Rinv_0_lt_compat; exact Hp | lra].
Qed.

Lemma round_IZR (k : Z) (n : nat) : round (IZR k) n = IZR k.
Proof.
  unfold round. pose proof (pow10_pos n) as Hp.
  replace (IZR k * 10 ^ n) with (IZR (k * 10 ^ Z.of_nat n)).
  - rewrite round_half_even_IZR, mult_IZR. 
    replace (IZR (10 ^ Z.of_nat n)) with (10 ^ n); [field; lra |].
    rewrite <- pow_IZR. reflexivity.
  - rewrite mult_IZR, <- pow_IZR. reflexivity.
Qed.


(** ** The arithmetic of the methods *)

Lemma truediv_ok (x y : R) : y <> 0 -> truediv x y = Ok (x / y).
Proof. intros H. unfold truediv. destruct (Req_dec_T y 0); [contradiction | reflexivity]. Qed.

Lemma truediv_zero (x : R) : truediv x 0 = Raise ZeroDivisionError.
Proof. unfold truediv. destruct (Req_dec_T 0 0); [reflexivity | contradiction]. Qed.

Lemma log_ok (x : R) : 0 < x -> math.log x = Ok (ln x).
Proof. intros H. unfold math.log. destruct (Rlt_dec 0 x); [reflexivity | contradiction]. Qed.

Lemma log_error (x : R) : x <= 0 -> math.log x = Raise ValueError.
Proof. intros H. unfold math.log. destruct (Rlt_dec 0 x); [lra | reflexivity]. Qed.

Lemma sqrt_ok (x : R) : 0 <= x -> math.sqrt x = Ok (sqrt x).
Proof. intros H. unfold math.sqrt. destruct (Rle_dec 0 x); [reflexivity | contradiction]. Qed.

Lemma sqrt_error (x : R) : x < 0 -> math.sqrt x = Raise ValueError.
Proof. intros H. unfold math.sqrt. destruct (Rle_dec 0 x); [lra | reflexivity]. Qed.

Lemma bind_ok {A B : Type} (m : result A) (k : A -> result B) (b : B) :
  bind m k = Ok b -> exists a, m = Ok a /\ k a = Ok b.
Proof. destruct m as [a | e]; simpl; [eauto | discriminate]. Qed.

Lemma truediv_inv (x y q : R) : truediv x y = Ok q -> y <> 0 /\ q = x / y.
Proof.
  unfold truediv. destruct (Req_dec_T y 0); [discriminate |].
  intros [= <-]. auto.
Qed.

Lemma log_inv (x l : R) : math.log x = Ok l -> 0 < x /\ l = ln x.
Proof.
  unfold math.log. destruct (Rlt_dec 0 x); [| discriminate]. intros [= <-]. auto.
Qed.

Lemma sqrt_inv (x s : R) : math.sqrt x = Ok s -> 0 <= x /\ s = sqrt x.
Proof.
  unfold math.sqrt. destruct (Rle_dec 0 x); [| discriminate]. intros [= <-]. auto.
Qed.

Lemma ln_div (x y : R) : 0 < x -> 0 < y -> ln (x / y) = ln x - ln y.
Proof.
  intros Hx Hy. unfold Rdiv.
  rewrite ln_mult, ln_Rinv; [ring | | | apply Rinv_0_lt_compat]; assumption.
Qed.

Lemma ln_pos_iff (x : R) : 0 < x -> (0 < ln x <-> 1 < x).
Proof.
  intros Hx. rewrite <- ln_1. split; intros H.
  - apply ln_lt_inv; [lra | assumption | assumption].
  - apply ln_increasing; lra.
Qed.

(** ** What the methods compute *)

Section MethodFacts.
Variable scipy : Scipy.

Lemma find_upper_limit_eq (self : HackParams) :
  find_upper_limit scipy self = Ok (fsolve scipy equation 0 (poverty self)).
Proof. reflexivity. Qed.

Lemma find_params_ok (self : HackParams) (z : R) :
  find_upper_limit scipy self = Ok z ->
  0 < average_income self -> 0 < poverty_line self -> 0 <= radicand self z ->
  find_params scipy self =
    Ok (ln (average_income self) - 0.5 * (z + sqrt (radicand self z)) ^ 2,
        z + sqrt (radicand self z)).
Proof.
  intros Hz Ha Ht Hr. unfold find_params. rewrite Hz. cbn [bind].
  rewrite truediv_ok by lra. cbn [bind].
  rewrite log_ok by (apply Rdiv_lt_0_compat; assumption). cbn [bind].
  rewrite sqrt_ok by exact Hr. cbn [bind].
  rewrite log_ok by exact Ha. reflexivity.
Qed.

Lemma find_params_inv (self : HackParams) (mu sigma : R) :
  find_params scipy self = Ok (mu, sigma) ->
  exists z, find_upper_limit scipy self = Ok z /\
    0 < average_income self /\ 0 < poverty_line self /\ 0 <= radicand self z /\
    sigma = z + sqrt (radicand self z) /\
    mu = ln (average_income self) - 0.5 * sigma ^ 2.
Proof.
  unfold find_params. intros H.
  apply bind_ok in H as [z [Hz H]]. apply bind_ok in H as [q [Hq H]].
  apply bind_ok in H as [l [Hl H]]. apply bind_ok in H as [s [Hs H]].
  apply bind_ok in H as [la [Hla H]]. injection H as Hmu Hsig.
  apply truediv_inv in Hq as [Ht ->]. apply log_inv in Hl as [Hq ->].
  apply sqrt_inv in Hs as [Hr ->]. apply log_inv in Hla as [Ha ->].
  exists z. repeat split; try assumption.
  - destruct (Rlt_or_le 0 (poverty_line self)) as [Hp | Hp]; [exact Hp | exfalso].
    assert (Hn : / poverty_line self < 0) by (apply Rinv_lt_0_compat; lra).
    unfold Rdiv in Hq. nra.
  - symmetry. exact Hsig.
  - rewrite <- Hsig. symmetry. exact Hmu.
Qed.

Lemma true_divide_finite (x y : R) : y <> 0 -> np.true_divide x y = at_ (x / y).
Proof.
  intros H. unfold np.true_divide. destruct (Req_dec_T y 0); [contradiction | reflexivity].
Qed.

Lemma true_divide_zero (x : R) :
  np.true_divide x 0 = plus_inf \/ np.true_divide x 0 = minus_inf \/
  np.true_divide x 0 = nan.
Proof.
  unfold np.true_divide. destruct (Req_dec_T 0 0) as [_ | H]; [| contradiction].
  destruct (Rlt_dec 0 x); [left; reflexivity | right].
  destruct (Rlt_dec x 0); [left | right]; reflexivity.
Qed.

Lemma count_poverty_frame_ok (self : HackParams) (new_line mu sigma : R) :
  find_params scipy self = Ok (mu, sigma) -> 0 < new_line ->
  let u := np.true_divide (ln new_line - mu) sigma in
  let q := quad scipy integrand (bound_opp np.inf) u in
  count_poverty_frame scipy self new_line =
    Ok {| l_mu := mu; l_sigma := sigma; l_ln_x0 := mu; l_u := u;
          l_integral := fst q; l_error := snd q;
          l_result := round (1 / sqrt (2 * PI) * fst q) 4 |}.
Proof.
  intros Hp Hn u q.
  destruct (find_params_inv _ _ _ Hp) as [z [_ [Ha [_ [_ [_ Hmu]]]]]].
  unfold count_poverty_frame. rewrite Hp. cbn [bind].
  rewrite log_ok by exact Ha. cbn [bind].
  rewrite log_ok by exact Hn. cbn [bind]. cbv zeta.
  rewrite <- Hmu. fold u. fold q. destruct q as [i e].
  unfold math.pi. rewrite sqrt_ok by (pose proof PI_RGT_0; lra). cbn [bind].
  rewrite truediv_ok by (pose proof sqrt_2PI_pos; lra). reflexivity.
Qed.

Lemma count_poverty_frame_inv (self : HackParams) (new_line : R) (fr : frame) :
  count_poverty_frame scipy self new_line = Ok fr ->
  find_params scipy self = Ok (l_mu fr, l_sigma fr) /\
  0 < new_line /\
  l_ln_x0 fr = l_mu fr /\
  l_u fr = np.true_divide (ln new_line - l_mu fr) (l_sigma fr) /\
  (l_integral fr, l_error fr) = quad scipy integrand minus_inf (l_u fr) /\
  l_result fr = round (1 / sqrt (2 * PI) * l_integral fr) 4.
Proof.
  intros H. unfold count_poverty_frame in H.
  apply bind_ok in H as [[mu sigma] [Hp H]].
  apply bind_ok in H as [la [Hla H]]. apply bind_ok in H as [ln' [Hln H]].
  cbv zeta in H.
  destruct (quad scipy integrand (bound_opp np.inf)
              (np.true_divide (ln' - (la - 0.5 * sigma ^ 2)) sigma)) as [i e] eqn:Hq.
  apply bind_ok in H as [c [Hc H]]. apply bind_ok in H as [k [Hk H]].
  injection H as <-. cbn [l_mu l_sigma l_ln_x0 l_u l_integral l_error l_result].
  destruct (find_params_inv _ _ _ Hp) as [z [_ [Ha [_ [_ [_ Hmu]]]]]].
  apply log_inv in Hla as [_ ->]. apply log_inv in Hln as [Hn ->].
  apply sqrt_inv in Hc as [_ ->]. apply truediv_inv in Hk as [_ ->].
  subst mu. repeat split; try assumption; try reflexivity.
  symmetry. exact Hq.
Qed.

(** The value of [count_poverty] after a successful fit, for every scale. *)
Lemma count_poverty_value (self : HackParams) (new_line mu sigma : R) :
  find_params scipy self = Ok (mu, sigma) -> 0 < new_line ->
  count_poverty scipy self new_line =
    Ok (round (1 / sqrt (2 * PI) *
               fst (quad scipy integrand minus_inf
                      (np.true_divide (ln new_line - mu) sigma))) 4
        * 100).
Proof.
  intros Hp Hn. unfold count_poverty.
  rewrite (count_poverty_frame_ok _ _ _ _ Hp Hn). reflexivity.
Qed.

Lemma count_poverty_ok (self : HackParams) (new_line mu sigma : R) :
  find_params scipy self = Ok (mu, sigma) -> 0 < new_line -> sigma <> 0 ->
  count_poverty scipy self new_line =
    Ok (round (1 / sqrt (2 * PI) *
               fst (quad scipy integrand minus_inf (at_ ((ln new_line - mu) / sigma)))) 4
        * 100).
Proof.
  intros Hp Hn Hs. rewrite (count_poverty_value _ _ _ _ Hp Hn).
  rewrite (true_divide_finite _ _ Hs). reflexivity.
Qed.

Lemma integrand_gauss (x : R) : integrand x = gauss x.
Proof. reflexivity. Qed.

Hypothesis scipy_exact : exact scipy.

Lemma quad_gauss (u : R) :
  u <= quad_reach ->
  1 / sqrt (2 * PI) * fst (quad scipy integrand minus_inf (at_ u)) = norm.cdf u.
Proof.
  intros Hu.
  change integrand with gauss.
  rewrite (quad_integral _ scipy_exact u _ Hu (gauss_integral u)).
  unfold norm.cdf. rewrite (integral_eq _ _ _ _ (gauss_integral u)). reflexivity.
Qed.


Lemma count_poverty_exact (self : HackParams) (new_line mu sigma : R) :
  find_params scipy self = Ok (mu, sigma) -> 0 < new_line -> sigma <> 0 ->
  (ln new_line - mu) / sigma <= quad_reach ->
  count_poverty scipy self new_line =
    Ok (round (norm.cdf ((ln new_line - mu) / sigma)) 4 * 100).
Proof.
  intros Hp Hn Hs Hu. rewrite (count_poverty_ok _ _ _ _ Hp Hn Hs), (quad_gauss _ Hu).
  reflexivity.
Qed.

Lemma fsolve_quantile (p : R) :
  0 < p < 1 -> norm.cdf (fsolve scipy equation 0 p) = p.
Proof.
  intros Hp. destruct (cdf_quantile p Hp) as [z Hz].
  pose proof (fsolve_root _ scipy_exact equation 0 p) as H.
  unfold equation in H. 
  assert (norm.cdf (fsolve scipy (fun x value => norm.cdf x - value) 0 p) - p = 0).
  { apply H. exists z. lra. }
  unfold equation. lra.
Qed.
End MethodFacts.

(** ** Two reference instances *)

Lemma median_quantile : fsolve exact_scipy equation 0 (50 / 100) = 0.
Proof.
  apply cdf_inj. rewrite cdf_0.
  rewrite (fsolve_quantile _ exact_scipy_exact (50 / 100)); lra.
Qed.

Lemma equal_income_fit :
  find_params exact_scipy (__init__ 1 1 50) = Ok (0, 0).
Proof.
  assert (Hr : radicand (__init__ 1 1 50) 0 = 0).
  { unfold radicand. simpl. replace (1 / 1) with 1 by field. rewrite ln_1. ring. }
  rewrite (find_params_ok exact_scipy (__init__ 1 1 50) 0).
  - rewrite Hr, sqrt_0. simpl. rewrite ln_1. do 2 f_equal; ring.
  - rewrite find_upper_limit_eq. f_equal. exact median_quantile.
  - simpl. lra.
  - simpl. lra.
  - rewrite Hr. lra.
Qed.

Lemma radicand_nonneg (self : HackParams) (z : R) :
  0 < poverty_line self <= average_income self -> 0 <= radicand self z.
Proof.
  intros [Ht Hta]. unfold radicand.
  assert (0 <= ln (average_income self / poverty_line self)).
  { rewrite ln_div by lra. destruct Hta as [Hlt | ->]; [| lra].
    pose proof (ln_increasing _ _ Ht Hlt). lra. }
  pose proof (pow2_ge_0 z). lra.
Qed.

Lemma sigma_identity (a t z sigma mu : R) :
  0 < a -> 0 < t -> 0 <= z ^ 2 + 2 * ln (a / t) ->
  sigma = z + sqrt (z ^ 2 + 2 * ln (a / t)) ->
  mu = ln a - 0.5 * sigma ^ 2 ->
  ln t - mu = sigma * z.
Proof.
  intros Ha Ht Hr Hs Hm.
  pose proof (sqrt_def _ Hr) as Hsq. rewrite ln_div in * by assumption.
  set (s := sqrt (z ^ 2 + 2 * (ln a - ln t))) in *.
  subst sigma mu. simpl in *. lra.
Qed.

Lemma ln_ratio_pos (a t : R) : 0 < a -> 0 < t -> (0 < ln (a / t) <-> t < a).
Proof.
  intros Ha Ht. rewrite ln_div by assumption. split; intros H.
  - apply ln_lt_inv; [assumption | assumption | lra].
  - pose proof (ln_increasing _ _ Ht H). lra.
Qed.

(** The sign of [z + sqrt (z^2 + 2 l)]. *)
Lemma root_sum_sign (z l s : R) :
  0 <= s -> s * s = z ^ 2 + 2 * l -> (0 < z + s <-> 0 < z \/ 0 < l).
Proof.
  intros Hs Hsq. split.
  - intros Hpos. destruct (Rlt_or_le 0 z) as [Hz | Hz]; [left; exact Hz | right].
    assert (0 < (s + z) * (s - z)) by (apply Rmult_lt_0_compat; lra). nra.
  - intros [Hz | Hl]; [lra |].
    destruct (Rlt_or_le 0 (z + s)) as [Hp | Hn]; [exact Hp | exfalso].
    assert (0 <= (- z - s) * (- z + s)) by (apply Rmult_le_pos; lra). nra.
Qed.

Lemma fit_scale_positive (scipy : Scipy) (self : HackParams) (mu sigma : R) :
  find_params scipy self = Ok (mu, sigma) ->
  poverty_line self < average_income self -> 0 < sigma.
Proof.
  intros Hfit Hta.
  destruct (find_params_inv _ _ _ _ Hfit) as [z [_ [Ha [Ht [Hr [-> _]]]]]].
  apply (root_sum_sign z (ln (average_income self / poverty_line self))).
  - apply sqrt_pos.
  - apply (sqrt_def _ Hr).
  - right. apply ln_ratio_pos; assumption.
Qed.

Lemma find_params_error (scipy : Scipy) (self : HackParams) (e : exn) :
  find_params scipy self = Raise e ->
  forall new_line, count_poverty scipy self new_line = Raise e.
Proof.
  intros H new_line. unfold count_poverty, count_poverty_frame. rewrite H. reflexivity.
Qed.




(** ** Polynomial bounds on the exponential and on the Gaussian primitive *)

Lemma INR_S_pos (k : nat) : 0 < INR (S k).
Proof. apply lt_0_INR. lia. Qed.

Lemma exp_term_S (k : nat) (s : R) :
  exp_term (S k) s = exp_term k s * (- s) / INR (S k).
Proof. reflexivity. Qed.

Lemma exp_term_deriv (k : nat) :
  forall s, derivable_pt_lim (exp_term (S k)) s (- exp_term k s).
Proof.
  induction k as [| j IH]; intros s.
  - apply derivable_pt_lim_ext with (f := fun y => 1 * - y * / INR 1).
    { intros y. reflexivity. }
    dlim. simpl. field.
  - pose proof (INR_S_pos (S j)) as Hp. pose proof (INR_S_pos j) as Hq.
    apply derivable_pt_lim_ext
      with (f := fun y => exp_term (S j) y * - y * / INR (S (S j))).
    { intros y. reflexivity. }
    dlim_with ltac:(apply IH).
    rewrite (exp_term_S j s). rewrite (S_INR (S j)). field. lra.
Qed.

Lemma exp_poly_deriv (n : nat) :
  forall s, derivable_pt_lim (exp_poly (S n)) s (- exp_poly n s).
Proof.
  induction n as [| m IH]; intros s.
  - apply derivable_pt_lim_ext with (f := fun y => 1 + exp_term 1 y).
    { intros y. reflexivity. }
    dlim_with ltac:(apply exp_term_deriv). simpl. ring.
  - apply derivable_pt_lim_ext
      with (f := fun y => exp_poly (S m) y + exp_term (S (S m)) y).
    { intros y. reflexivity. }
    dlim_with ltac:(first [apply IH | apply exp_term_deriv]).
    change (exp_poly (S m) s) with (exp_poly m s + exp_term (S m) s). ring.
Qed.

Lemma exp_term_0 (k : nat) : exp_term (S k) 0 = 0.
Proof. rewrite exp_term_S. unfold Rdiv. ring. Qed.

Lemma exp_poly_0 (n : nat) : exp_poly n 0 = 1.
Proof.
  induction n as [| m IH]; [reflexivity |].
  change (exp_poly (S m) 0) with (exp_poly m 0 + exp_term (S m) 0).
  rewrite IH, exp_term_0. ring.
Qed.

(** The Taylor polynomials of [exp (- s)] lie alternately above and
    below it. *)
Lemma exp_neg_sign (n : nat) :
  forall s, 0 <= s -> 0 <= (-1) ^ n * (exp_poly n s - exp (- s)).
Proof.
  induction n as [| m IH]; intros s Hs.
  - simpl. pose proof (exp_neg_le_1 s Hs). lra.
  - pose proof (primitive_incr
                  (fun y => (-1) ^ m * (exp_poly m y - exp (- y)))
                  (fun y => (-1) ^ S m * (exp_poly (S m) y - exp (- y))) 0 s) as H.
    cbv beta in H. rewrite exp_poly_0, Ropp_0, exp_0 in H.
    replace ((-1) ^ S m * (1 - 1)) with 0 in H by ring.
    apply H; [| | exact Hs].
    + intros y. dlim_with ltac:(apply exp_poly_deriv). simpl. ring.
    + intros y [Hy _]. apply IH. exact Hy.
Qed.

Lemma gauss_term_deriv (k : nat) :
  forall x, derivable_pt_lim (gauss_term k) x (exp_term k (x * x / 2)).
Proof.
  destruct k as [| j]; intros x.
  - apply derivable_pt_lim_ext with (f := fun y => 1 * y * / INR 1).
    { intros y. reflexivity. }
    dlim. simpl. field.
  - assert (Hp : 0 < INR (2 * S j + 1)) by (apply lt_0_INR; lia).
    pose proof (INR_S_pos j) as Hq.
    apply derivable_pt_lim_ext
      with (f := fun y => exp_term (S j) (y * y * / 2) * y * / INR (2 * S j + 1)).
    { intros y. reflexivity. }
    dlim_with ltac:(apply (dl_comp (exp_term (S j)) (fun y => y * y * / 2));
                    [| apply exp_term_deriv]).
    unfold Rdiv. rewrite (exp_term_S j (x * x * / 2)).
    replace (INR (2 * S j + 1)) with (2 * INR (S j) + 1)
      by (rewrite plus_INR, mult_INR; simpl; ring).
    unfold Rdiv. field. lra.
Qed.

Lemma gauss_poly_deriv (n : nat) :
  forall x, derivable_pt_lim (gauss_poly n) x (exp_poly n (x * x / 2)).
Proof.
  induction n as [| m IH]; intros x.
  - apply (gauss_term_deriv 0).
  - apply derivable_pt_lim_ext
      with (f := fun y => gauss_poly m y + gauss_term (S m) y).
    { intros y. reflexivity. }
    dlim_with ltac:(first [apply IH | apply gauss_term_deriv]). reflexivity.
Qed.

Lemma gauss_poly_0 (n : nat) : gauss_poly n 0 = 0.
Proof.
  induction n as [| m IH].
  - unfold gauss_poly, gauss_term. unfold Rdiv. ring.
  - change (gauss_poly (S m) 0) with (gauss_poly m 0 + gauss_term (S m) 0).
    rewrite IH. unfold gauss_term, Rdiv. ring.
Qed.

Lemma gauss_as_exp (x : R) : gauss x = exp (- (x * x / 2)).
Proof. unfold gauss. apply (f_equal exp). simpl. field. Qed.

Lemma erf_like_sign (n : nat) (x : R) :
  0 <= x -> 0 <= (-1) ^ n * (gauss_poly n x - erf_like x).
Proof.
  intros Hx.
  pose proof (primitive_incr
                (fun y => (-1) ^ n * (exp_poly n (y * y / 2) - gauss y))
                (fun y => (-1) ^ n * (gauss_poly n y - erf_like y)) 0 x) as H.
  cbv beta in H. rewrite gauss_poly_0, erf_like_0 in H.
  replace ((-1) ^ n * (0 - 0)) with 0 in H by ring.
  apply H; [| | exact Hx].
  - intros y.
    dlim_with ltac:(first [apply gauss_poly_deriv | apply erf_like_deriv]). ring.
  - intros y _. rewrite gauss_as_exp. apply exp_neg_sign. nra.
Qed.

Lemma erf_like_le_poly (m : nat) (x : R) :
  0 <= x -> erf_like x <= gauss_poly (2 * m) x.
Proof.
  intros Hx. pose proof (erf_like_sign (2 * m) x Hx) as H.
  rewrite pow_1_even in H. lra.
Qed.

Lemma erf_like_ge_poly (m : nat) (x : R) :
  0 <= x -> gauss_poly (S (2 * m)) x <= erf_like x.
Proof.
  intros Hx. pose proof (erf_like_sign (S (2 * m)) x Hx) as H.
  rewrite pow_1_odd in H. lra.
Qed.

Lemma exp_neg_le_poly (m : nat) (s : R) : 0 <= s -> exp (- s) <= exp_poly (2 * m) s.
Proof.
  intros Hs. pose proof (exp_neg_sign (2 * m) s Hs) as H.
  rewrite pow_1_even in H. lra.
Qed.

Lemma exp_neg_ge_poly (m : nat) (s : R) : 0 <= s -> exp_poly (S (2 * m)) s <= exp (- s).
Proof.
  intros Hs. pose proof (exp_neg_sign (S (2 * m)) s Hs) as H.
  rewrite pow_1_odd in H. lra.
Qed.

(** Bounds on a logarithm from the Taylor polynomials. *)
Lemma ln_lt_from_poly (m : nat) (r l : R) :
  0 < r -> 0 <= l -> exp_poly (2 * m) l * r < 1 -> ln r < l.
Proof.
  intros Hr Hl H. rewrite <- (ln_exp l). apply ln_increasing; [exact Hr |].
  pose proof (exp_neg_le_poly m l Hl) as Hp. rewrite exp_Ropp in Hp.
  pose proof (exp_pos l) as He.
  assert (Hi : / exp l * r < 1) by nra.
  apply Rmult_lt_reg_l with (/ exp l); [apply Rinv_0_lt_compat; exact He |].
  rewrite Rinv_l by lra. exact Hi.
Qed.

Lemma ln_gt_from_poly (m : nat) (r l : R) :
  0 < r -> 0 <= l -> 1 < exp_poly (S (2 * m)) l * r -> l < ln r.
Proof.
  intros Hr Hl H. rewrite <- (ln_exp l). apply ln_increasing; [apply exp_pos |].
  pose proof (exp_neg_ge_poly m l Hl) as Hp. rewrite exp_Ropp in Hp.
  pose proof (exp_pos l) as He.
  assert (Hi : 1 < / exp l * r) by nra.
  apply Rmult_lt_reg_l with (/ exp l); [apply Rinv_0_lt_compat; exact He |].
  rewrite Rinv_l by lra. exact Hi.
Qed.

(** ** Numerical bounds for the reference example *)

Ltac eval_poly :=
  cbv [gauss_poly gauss_term exp_poly exp_term INR Nat.mul Nat.add]; lra.

Lemma PI_bounds : 3.14159 < PI < 3.1416.
Proof.
  pose proof (PI_2_3_7_ineq 2) as H.
  cbv [sum_f_R0 tg_alt PI_2_3_7_tg Ratan_seq Nat.mul Nat.add INR pow] in H.
  lra.
Qed.

Lemma sqrt_2PI_bounds : 2.5066 < sqrt (2 * PI) < 2.5067.
Proof.
  pose proof PI_bounds as HP. pose proof sqrt_2PI_pos as Hs.
  pose proof (sqrt_def (2 * PI) ltac:(lra)) as Hsq.
  split; nra.
Qed.

Lemma ln2_bounds : 0.69314 < ln 2 < 0.69315.
Proof.
  split.
  - apply (ln_gt_from_poly 4); [lra | lra | eval_poly].
  - apply (ln_lt_from_poly 4); [lra | lra | eval_poly].
Qed.

Lemma ln_income_ratio_bounds : 1.1992 < ln (44937 / 13545) < 1.1993.
Proof.
  split.
  - apply (ln_gt_from_poly 5); [lra | lra | eval_poly].
  - apply (ln_lt_from_poly 6); [lra | lra | eval_poly].
Qed.

Lemma ln_new_ratio_bounds : 1.1280 < ln (44937 / 14545) < 1.1281.
Proof.
  split.
  - apply (ln_gt_from_poly 5); [lra | lra | eval_poly].
  - apply (ln_lt_from_poly 6); [lra | lra | eval_poly].
Qed.

Lemma ln_income_bounds : 10.7129 < ln 44937 < 10.7132.
Proof.
  assert (H : ln 44937 = 15 * ln 2 + ln (44937 / 32768)).
  { replace 44937 with (2 ^ 15 * (44937 / 32768)) at 1 by (simpl; field).
    rewrite ln_mult, ln_pow; [simpl; lra | lra | apply pow_lt; lra | lra]. }
  assert (Hr : 0.3158 < ln (44937 / 32768) < 0.3159).
  { split.
    - apply (ln_gt_from_poly 3); [lra | lra | eval_poly].
    - apply (ln_lt_from_poly 3); [lra | lra | eval_poly]. }
  pose proof ln2_bounds. lra.
Qed.

Lemma erf_like_bounds :
  1.0077 < erf_like 1.2935 /\ erf_like 1.2926 < 1.0076 /\
  0.9615 < erf_like 1.1938 /\ erf_like 1.1957 < 0.9630.
Proof.
  repeat split.
  - apply Rlt_le_trans with (gauss_poly (S (2 * 3)) 1.2935);
      [eval_poly | apply erf_like_ge_poly; lra].
  - apply Rle_lt_trans with (gauss_poly (2 * 3) 1.2926);
      [apply erf_like_le_poly; lra | eval_poly].
  - apply Rlt_le_trans with (gauss_poly (S (2 * 3)) 1.1938);
      [eval_poly | apply erf_like_ge_poly; lra].
  - apply Rle_lt_trans with (gauss_poly (2 * 3) 1.1957);
      [apply erf_like_le_poly; lra | eval_poly].
Qed.

Lemma cdf_neg (x : R) : norm.cdf (- x) = 1 / 2 - erf_like x / sqrt (2 * PI).
Proof. rewrite cdf_eq, erf_like_odd. unfold Rdiv. ring. Qed.

Lemma cdf_reference_bounds :
  norm.cdf (- (1.2935)) < 0.098 /\ 0.098 < norm.cdf (- (1.2926)) /\
  0.11565 < norm.cdf (- (1.1957)) /\ norm.cdf (- (1.1938)) < 0.11655.
Proof.
  rewrite !cdf_neg.
  destruct erf_like_bounds as [H1 [H2 [H3 H4]]].
  destruct sqrt_2PI_bounds as [Hl Hu].
  assert (Hi : 0 < / sqrt (2 * PI)) by (apply Rinv_0_lt_compat; lra).
  assert (Hone : sqrt (2 * PI) * / sqrt (2 * PI) = 1) by (apply Rinv_r; lra).
  unfold Rdiv. repeat split; nra.
Qed.




(** ** Further properties of the methods *)

Lemma round_half_even_unique (y : R) (k : Z) :
  Rabs (y - IZR k) < 1 / 2 -> round_half_even y = k.
Proof.
  intros H. pose proof (round_half_even_near y) as Hn.
  apply Rabs_def2 in H. apply abs_le_inv in Hn.
  apply Z.le_antisymm; apply Z.lt_succ_r, lt_IZR; rewrite succ_IZR; lra.
Qed.

Lemma pow10_IZR (n : nat) : 10 ^ n = IZR (10 ^ Z.of_nat n).
Proof. rewrite <- pow_IZR. reflexivity. Qed.

Lemma round_unique (y : R) (k : Z) (n : nat) :
  Rabs (y - IZR k / 10 ^ n) < / 2 / 10 ^ n -> round y n = IZR k / 10 ^ n.
Proof.
  intros H. unfold round. pose proof (pow10_pos n) as Hp.
  rewrite (round_half_even_unique (y * 10 ^ n) k); [reflexivity |].
  replace (y * 10 ^ n - IZR k) with ((y - IZR k / 10 ^ n) * 10 ^ n) by (field; lra).
  rewrite Rabs_mult, (Rabs_pos_eq (10 ^ n)) by lra.
  apply Rmult_lt_reg_r with (/ 10 ^ n); [apply Rinv_0_lt_compat; exact Hp |].
  rewrite Rmult_assoc, Rinv_r by lra. unfold Rdiv in H. lra.
Qed.

Lemma round_decimal (k : Z) (n : nat) : round (IZR k / 10 ^ n) n = IZR k / 10 ^ n.
Proof.
  apply round_unique. pose proof (pow10_pos n) as Hp.
  replace (IZR k / 10 ^ n - IZR k / 10 ^ n) with 0 by (field; lra).
  rewrite Rabs_R0. apply Rdiv_lt_0_compat; lra.
Qed.

Lemma count_poverty_bad_line (scipy : Scipy) (self : HackParams) (new_line mu sigma : R) :
  find_params scipy self = Ok (mu, sigma) -> new_line <= 0 ->
  count_poverty scipy self new_line = Raise ValueError.
Proof.
  intros Hfit Hn.
  destruct (find_params_inv _ _ _ _ Hfit) as [z [_ [Ha _]]].
  unfold count_poverty, count_poverty_frame. rewrite Hfit. cbn [bind].
  rewrite log_ok by exact Ha. cbn [bind].
  rewrite log_error by exact Hn. reflexivity.
Qed.

(** The standardized original threshold is the quantile. *)
Lemma standardized_threshold (scipy : Scipy) (self : HackParams) (z mu sigma : R) :
  find_upper_limit scipy self = Ok z ->
  find_params scipy self = Ok (mu, sigma) -> sigma <> 0 ->
  (ln (poverty_line self) - mu) / sigma = z.
Proof.
  intros Hz Hfit Hs.
  destruct (find_params_inv _ _ _ _ Hfit) as [z' [Hz' [Ha [Ht [Hr [Hsig Hmu]]]]]].
  rewrite Hz in Hz'. injection Hz' as <-.
  rewrite (sigma_identity _ _ z sigma mu Ha Ht Hr Hsig Hmu). field. exact Hs.
Qed.

Lemma root_sum_neg (z l s : R) :
  0 <= s -> s * s = z ^ 2 + 2 * l -> z < 0 -> l < 0 -> z + s < 0.
Proof.
  intros Hs Hsq Hz Hl.
  destruct (Rlt_or_le (z + s) 0) as [H | H]; [exact H | exfalso].
  assert (0 <= (s + z) * (s - z)) by (apply Rmult_le_pos; lra). nra.
Qed.

(** An instance whose fit has a negative scale: income 1 below the
    threshold 2 with a poverty rate of 1 percent. *)
Lemma negative_fit_detail :
  exists z mu sigma,
    find_upper_limit exact_scipy (__init__ 1 2 1) = Ok z /\
    norm.cdf z = 1 / 100 /\ z < 0 /\
    find_params exact_scipy (__init__ 1 2 1) = Ok (mu, sigma) /\
    - (1.175) < sigma < 0 /\
    mu = - (0.5 * sigma ^ 2).
Proof.
  set (self := __init__ 1 2 1).
  set (z := fsolve exact_scipy equation 0 (poverty self)).
  assert (Hq : norm.cdf z = 1 / 100).
  { apply (fsolve_quantile _ exact_scipy_exact). simpl. lra. }
  assert (Hz : z < - (1.18)).
  { destruct (Rlt_or_le z (- (1.18))) as [H | H]; [exact H | exfalso].
    pose proof (cdf_le _ _ H) as Hc. rewrite cdf_neg, Hq in Hc.
    pose proof (erf_like_le_poly 0 1.18 ltac:(lra)) as He.
    assert (Hg : gauss_poly (2 * 0) 1.18 = 1.18).
    { cbv [gauss_poly gauss_term exp_term INR Nat.mul Nat.add]. field. }
    rewrite Hg in He. destruct sqrt_2PI_bounds as [Hl Hu].
    assert (Hi : 0 < / sqrt (2 * PI)) by (apply Rinv_0_lt_compat; lra).
    assert (Hone : sqrt (2 * PI) * / sqrt (2 * PI) = 1) by (apply Rinv_r; lra).
    unfold Rdiv in Hc. nra. }
  assert (Hl : ln (1 / 2) = - ln 2).
  { rewrite ln_div, ln_1 by lra. ring. }
  pose proof ln2_bounds as Hl2.
  assert (Hr : 0 <= radicand self z).
  { unfold radicand. simpl average_income. simpl poverty_line. rewrite Hl. nra. }
  pose proof (find_params_ok exact_scipy self z (find_upper_limit_eq _ _)
                ltac:(simpl; lra) ltac:(simpl; lra) Hr) as Hfit.
  pose proof (sqrt_pos (radicand self z)) as Hs0.
  pose proof (sqrt_def _ Hr) as Hsq.
  set (s := sqrt (radicand self z)) in *.
  assert (Hneg : z + s < 0).
  { apply (root_sum_neg z (ln (1 / 2))); [exact Hs0 | exact Hsq | lra | lra]. }
  exists z. eexists. exists (z + s).
  split; [apply find_upper_limit_eq |]. split; [exact Hq |]. split; [lra |].
  split; [exact Hfit |]. split; [split; [| exact Hneg] |].
  - unfold radicand in Hsq. simpl average_income in Hsq. simpl poverty_line in Hsq.
    rewrite Hl in Hsq. simpl in Hsq.
    destruct (Rlt_or_le (- (1.175)) (z + s)) as [H | H]; [exact H | exfalso].
    assert (Hid : (z + s) * ((z + s) - 2 * z) = - (2 * ln 2)) by nra.
    assert ((z + s) * ((z + s) - 2 * z) <= - (1.175) * ((z + s) - 2 * z))
      by (apply Rmult_le_compat_r; lra).
    nra.
  - simpl average_income. rewrite ln_1. ring.
Qed.

Lemma negative_fit :
  exists mu sigma, find_params exact_scipy (__init__ 1 2 1) = Ok (mu, sigma) /\ sigma < 0.
Proof.
  destruct negative_fit_detail as [z [mu [sigma [_ [_ [_ [Hfit [[_ Hs] _]]]]]]]].
  exists mu, sigma. split; assumption.
Qed.



(** The instance (2, 1, 50): the quantile is 0, the fitted location is 0
    and the fitted scale is [sqrt (2 ln 2)], between 1 and 1.2. *)
Lemma median_fit (scipy : Scipy) :
  fsolve scipy = fsolve exact_scipy ->
  exists sigma,
    find_upper_limit scipy (__init__ 2 1 50) = Ok 0 /\
    find_params scipy (__init__ 2 1 50) = Ok (0, sigma) /\
    1 <= sigma <= 1.2.
Proof.
  intros Hf.
  assert (Hz : find_upper_limit scipy (__init__ 2 1 50) = Ok 0).
  { rewrite find_upper_limit_eq, Hf. f_equal. exact median_quantile. }
  assert (Hr : 0 <= radicand (__init__ 2 1 50) 0).
  { apply radicand_nonneg. simpl. lra. }
  pose proof (find_params_ok scipy (__init__ 2 1 50) 0 Hz
                ltac:(simpl; lra) ltac:(simpl; lra) Hr) as Hfit.
  pose proof (sqrt_pos (radicand (__init__ 2 1 50) 0)) as Hp.
  pose proof (sqrt_def _ Hr) as Hsq.
  assert (Hl : radicand (__init__ 2 1 50) 0 = 2 * ln 2).
  { unfold radicand. simpl. replace (2 / 1) with 2 by field. ring. }
  fold (radicand (__init__ 2 1 50) 0) in Hfit.
  set (s := sqrt (radicand (__init__ 2 1 50) 0)) in *.
  rewrite Hl in Hsq. destruct ln2_bounds as [Hlo Hhi].
  exists (0 + s). split; [exact Hz |]. split; [| split; nra].
  rewrite Hfit. f_equal. f_equal. simpl average_income.
  replace ((0 + s) ^ 2) with (s * s) by ring. rewrite Hsq. lra.
Qed.



(** ** The claims *)




(** C2: for positive income and threshold and a non-negative radicand,
    [find_params] returns the closed form in the quantile [z] that
    [find_upper_limit] returned: scale [z + sqrt (z^2 + 2 ln (a/t))] and
    location [ln a - 0.5 scale^2]; the root finder is not called again. *)
Theorem find_params_closed_form (scipy : Scipy) (a t p z : R) :
  0 < a -> 0 < t ->
  find_upper_limit scipy (__init__ a t p) = Ok z ->
  0 <= z ^ 2 + 2 * ln (a / t) ->
  let scale := z + sqrt (z ^ 2 + 2 * ln (a / t)) in
  let location := ln a - 0.5 * scale ^ 2 in
  find_params scipy (__init__ a t p) = Ok (location, scale).
Proof.
  intros Ha Ht Hz Hr scale location.
  exact (find_params_ok scipy (__init__ a t p) z Hz Ha Ht Hr).
Qed.

Lemma find_params_closed_form_witness :
  exists z,
    find_upper_limit exact_scipy (__init__ 2 1 50) = Ok z /\
    find_params exact_scipy (__init__ 2 1 50) =
      Ok (ln 2 - 0.5 * (z + sqrt (z ^ 2 + 2 * ln (2 / 1))) ^ 2,
          z + sqrt (z ^ 2 + 2 * ln (2 / 1))).
Proof.
  exists 0. split.
  - rewrite find_upper_limit_eq. f_equal. exact median_quantile.
  - apply (find_params_closed_form exact_scipy 2 1 50 0); try lra.
    + rewrite find_upper_limit_eq. f_equal. exact median_quantile.
    + replace (2 / 1) with 2 by field.
      assert (0 < ln 2) by (apply ln_pos_iff; lra). simpl. lra.
Defined.

(** C4, as stated, fails: the percentage 150 is outside (0,100), yet the
    constructor stores 1.5 and [find_params] returns parameters. *)
Lemma out_of_range_fraction_accepted :
  exists mu sigma,
    poverty (__init__ 1 1 150) = 150 / 100 /\
    find_params exact_scipy (__init__ 1 1 150) = Ok (mu, sigma).
Proof.
  eexists. eexists. split; [reflexivity |].
  apply (find_params_ok exact_scipy (__init__ 1 1 150) _ (find_upper_limit_eq _ _)).
  - simpl. lra.
  - simpl. lra.
  - apply radicand_nonneg. simpl. lra.
Qed.

(** C4, amended: for every percentage, inside (0,100) or not, the
    constructor stores the percentage divided by 100 and raises nothing,
    and [find_params] returns parameters whenever the threshold is
    positive and at most the average income. *)
Theorem no_fraction_check (scipy : Scipy) (a t p : R) :
  0 < t -> t <= a ->
  poverty (__init__ a t p) = p / 100 /\
  exists mu sigma, find_params scipy (__init__ a t p) = Ok (mu, sigma).
Proof.
  intros Ht Hta. split; [reflexivity |].
  eexists. eexists.
  apply (find_params_ok scipy (__init__ a t p) _ (find_upper_limit_eq _ _)).
  - simpl. lra.
  - simpl. lra.
  - apply radicand_nonneg. simpl. lra.
Qed.

Lemma no_fraction_check_witness :
  poverty (__init__ 3 2 (-5)) = -5 / 100 /\
  exists mu sigma, find_params exact_scipy (__init__ 3 2 (-5)) = Ok (mu, sigma).
Proof.
  apply (no_fraction_check exact_scipy 3 2 (-5)); lra.
Defined.

(** C5, as stated, fails: for the percentage 150 the equation has no
    root, and [find_upper_limit] still returns a number, which is not a
    root. *)
Lemma non_root_returned :
  exists x,
    find_upper_limit exact_scipy (__init__ 1 1 150) = Ok x /\
    equation x (poverty (__init__ 1 1 150)) <> 0.
Proof.
  eexists. split; [apply find_upper_limit_eq |].
  unfold equation at 1.
  match goal with |- context [norm.cdf ?x] => pose proof (cdf_bounds x) end.
  cbn [poverty __init__] in *. lra.
Qed.

(** C5, amended: [find_upper_limit] never raises.  It returns what
    [fsolve] returns: a root of the equation when the fraction is in (0,1)
    and the root finder is exact, and a number that is not a root when the
    fraction is outside (0,1). *)
Theorem find_upper_limit_total (scipy : Scipy) (self : HackParams) :
  exists x,
    find_upper_limit scipy self = Ok x /\
    (exact scipy -> 0 < poverty self < 1 -> equation x (poverty self) = 0) /\
    (~ 0 < poverty self < 1 -> equation x (poverty self) <> 0).
Proof.
  eexists. split; [apply find_upper_limit_eq |]. split.
  - intros Hex Hp. unfold equation at 1. rewrite (fsolve_quantile _ Hex _ Hp). ring.
  - intros Hp. unfold equation at 1.
    pose proof (cdf_bounds (fsolve scipy equation 0 (poverty self))). lra.
Qed.

(** C6, as stated, fails: for the triple (1, 1, 50) the solved scale is 0
    and [find_params] returns it. *)
Lemma zero_scale_returned :
  exists mu sigma,
    find_params exact_scipy (__init__ 1 1 50) = Ok (mu, sigma) /\ sigma <= 0.
Proof.
  exists 0, 0. split; [exact equal_income_fit | lra].
Qed.

(** C6, amended: [find_params] does not look at the sign of the scale.
    The scale it returns is positive exactly when the quantile is positive
    or the average income exceeds the threshold. *)
Theorem scale_sign (scipy : Scipy) (self : HackParams) (z mu sigma : R) :
  find_upper_limit scipy self = Ok z ->
  find_params scipy self = Ok (mu, sigma) ->
  (0 < sigma <-> 0 < z \/ poverty_line self < average_income self).
Proof.
  intros Hz Hfit.
  destruct (find_params_inv _ _ _ _ Hfit) as [z' [Hz' [Ha [Ht [Hr [-> _]]]]]].
  rewrite Hz in Hz'. injection Hz' as <-.
  rewrite <- (ln_ratio_pos _ _ Ha Ht).
  apply root_sum_sign; [apply sqrt_pos | apply (sqrt_def _ Hr)].
Qed.

Lemma scale_sign_witness :
  exists mu sigma,
    find_params exact_scipy (__init__ 2 1 50) = Ok (mu, sigma) /\
    (0 < sigma <-> 0 < 0 \/ poverty_line (__init__ 2 1 50) < average_income (__init__ 2 1 50)).
Proof.
  assert (Hz : find_upper_limit exact_scipy (__init__ 2 1 50) = Ok 0).
  { rewrite find_upper_limit_eq. f_equal. exact median_quantile. }
  assert (Hr : 0 <= radicand (__init__ 2 1 50) 0).
  { apply radicand_nonneg. simpl. lra. }
  pose proof (find_params_ok exact_scipy (__init__ 2 1 50) 0 Hz
                ltac:(simpl; lra) ltac:(simpl; lra) Hr) as Hfit.
  eexists. eexists. split; [exact Hfit |].
  exact (scale_sign exact_scipy (__init__ 2 1 50) 0 _ _ Hz Hfit).
Defined.

Lemma reference_fit (scipy : Scipy) :
  fsolve scipy = fsolve exact_scipy ->
  exists mu sigma, find_params scipy (__init__ 2 1 50) = Ok (mu, sigma) /\ 0 < sigma.
Proof.
  intros Hf.
  assert (Hz : find_upper_limit scipy (__init__ 2 1 50) = Ok 0).
  { rewrite find_upper_limit_eq, Hf. f_equal. exact median_quantile. }
  assert (Hr : 0 <= radicand (__init__ 2 1 50) 0).
  { apply radicand_nonneg. simpl. lra. }
  pose proof (find_params_ok scipy (__init__ 2 1 50) 0 Hz
                ltac:(simpl; lra) ltac:(simpl; lra) Hr) as Hfit.
  eexists. eexists. split; [exact Hfit |].
  apply (fit_scale_positive scipy (__init__ 2 1 50) _ _ Hfit). simpl. lra.
Qed.

(** C7, as stated, fails: a quadrature that did not converge is not
    noticed, its value is rounded and returned; and for the threshold 0
    the exception is the [ValueError] of [math.log], raised before the
    quadrature is reached. *)
Lemma unconverged_quadrature_returned :
  count_poverty unconverged_scipy (__init__ 2 1 50) 1 = Ok 0 /\
  count_poverty exact_scipy (__init__ 2 1 50) 0 = Raise ValueError.
Proof.
  split.
  - destruct (reference_fit unconverged_scipy eq_refl) as [mu [sigma [Hfit Hs]]].
    rewrite (count_poverty_ok _ _ _ _ _ Hfit) by lra.
    simpl fst. rewrite Rmult_0_r, (round_IZR 0 4). f_equal. ring.
  - destruct (reference_fit exact_scipy eq_refl) as [mu [sigma [Hfit Hs]]].
    unfold count_poverty, count_poverty_frame. rewrite Hfit. cbn [bind].
    rewrite log_ok by (simpl; lra). cbn [bind].
    rewrite log_error by lra. reflexivity.
Qed.

(** C7, amended: with a threshold that is not positive the call raises
    and returns no number; when the fit itself succeeds the exception is
    the [ValueError] of [math.log].  With a positive threshold, a fit that
    succeeds and a scale other than 0, the call returns the rounded value
    of the quadrature whatever its error estimate says. *)
Theorem count_poverty_failures (scipy : Scipy) (self : HackParams) (new_line : R) :
  (new_line <= 0 ->
     (exists e, count_poverty scipy self new_line = Raise e) /\
     (forall mu sigma, find_params scipy self = Ok (mu, sigma) ->
        count_poverty scipy self new_line = Raise ValueError)) /\
  (0 < new_line ->
     forall mu sigma, find_params scipy self = Ok (mu, sigma) -> sigma <> 0 ->
       count_poverty scipy self new_line =
         Ok (round (1 / sqrt (2 * PI) *
                    fst (quad scipy integrand minus_inf
                           (at_ ((ln new_line - mu) / sigma)))) 4 * 100)).
Proof.
  split.
  - intros Hn.
    assert (Hv : forall mu sigma, find_params scipy self = Ok (mu, sigma) ->
                 count_poverty scipy self new_line = Raise ValueError).
    { intros mu sigma Hfit.
      destruct (find_params_inv _ _ _ _ Hfit) as [z [_ [Ha _]]].
      unfold count_poverty, count_poverty_frame. rewrite Hfit. cbn [bind].
      rewrite log_ok by exact Ha. cbn [bind].
      rewrite log_error by exact Hn. reflexivity. }
    split; [| exact Hv].
    destruct (find_params scipy self) as [[mu sigma] | e] eqn:Hfit.
    + exists ValueError. apply (Hv mu sigma). reflexivity.
    + exists e. unfold count_poverty, count_poverty_frame. rewrite Hfit. reflexivity.
  - intros Hn mu sigma Hfit Hs. apply count_poverty_ok; assumption.
Qed.

Lemma count_poverty_failures_witness :
  ((exists e, count_poverty exact_scipy (__init__ 2 1 50) (-1) = Raise e) /\
   (forall mu sigma, find_params exact_scipy (__init__ 2 1 50) = Ok (mu, sigma) ->
      count_poverty exact_scipy (__init__ 2 1 50) (-1) = Raise ValueError)) /\
  exists mu sigma,
    find_params exact_scipy (__init__ 2 1 50) = Ok (mu, sigma) /\
    count_poverty exact_scipy (__init__ 2 1 50) 3 =
      Ok (round (1 / sqrt (2 * PI) *
                 fst (quad exact_scipy integrand minus_inf
                        (at_ ((ln 3 - mu) / sigma)))) 4 * 100).
Proof.
  split.
  - apply (proj1 (count_poverty_failures exact_scipy (__init__ 2 1 50) (-1))). lra.
  - destruct (reference_fit exact_scipy eq_refl) as [mu [sigma [Hfit Hs]]].
    exists mu, sigma. split; [exact Hfit |].
    apply (proj2 (count_poverty_failures exact_scipy (__init__ 2 1 50) 3));
      [lra | exact Hfit | lra].
Defined.







(** C10: inside [count_poverty] the recomputed [ln_x0] is the location
    [mu] that [find_params] returned, so the standardized variable is
    [u = (ln new_line - mu) / sigma], a [numpy.float64] quotient. *)
Theorem ln_x0_is_mu (scipy : Scipy) (self : HackParams) (new_line mu sigma : R)
    (fr : frame) :
  find_params scipy self = Ok (mu, sigma) ->
  count_poverty_frame scipy self new_line = Ok fr ->
  l_mu fr = mu /\ l_sigma fr = sigma /\
  l_ln_x0 fr = mu /\
  l_u fr = np.true_divide (ln new_line - mu) sigma /\
  (sigma <> 0 -> l_u fr = at_ ((ln new_line - mu) / sigma)).
Proof.
  intros Hfit Hfr.
  destruct (count_poverty_frame_inv _ _ _ _ Hfr) as [Hfit' [_ [Hx [Hu _]]]].
  rewrite Hfit in Hfit'. injection Hfit' as Hm Hs.
  rewrite Hx, Hu, <- Hm, <- Hs. repeat split; try reflexivity.
  intros Hn. apply true_divide_finite. exact Hn.
Qed.

Lemma ln_x0_is_mu_witness :
  exists mu sigma fr,
    find_params exact_scipy (__init__ 2 1 50) = Ok (mu, sigma) /\
    count_poverty_frame exact_scipy (__init__ 2 1 50) 3 = Ok fr /\
    l_mu fr = mu /\ l_sigma fr = sigma /\
    l_ln_x0 fr = mu /\
    l_u fr = np.true_divide (ln 3 - mu) sigma /\
    (sigma <> 0 -> l_u fr = at_ ((ln 3 - mu) / sigma)).
Proof.
  destruct (reference_fit exact_scipy eq_refl) as [mu [sigma [Hfit Hs]]].
  pose proof (count_poverty_frame_ok exact_scipy _ 3 _ _ Hfit ltac:(lra)) as Hfr.
  cbv zeta in Hfr.
  exists mu, sigma. eexists. split; [exact Hfit |]. split; [exact Hfr |].
  exact (ln_x0_is_mu exact_scipy _ 3 mu sigma _ Hfit Hfr).
Defined.

(** The quantile of 9.8 percent. *)
Lemma reference_quantile (z : R) :
  norm.cdf z = 9.8 / 100 -> - (1.2935) < z < - (1.2926).
Proof.
  intros Hz. destruct cdf_reference_bounds as [H1 [H2 _]]. split.
  - destruct (Rlt_or_le (- (1.2935)) z) as [H | H]; [exact H | exfalso].
    pose proof (cdf_le _ _ H). lra.
  - destruct (Rlt_or_le z (- (1.2926))) as [H | H]; [exact H | exfalso].
    pose proof (cdf_le _ _ H). lra.
Qed.

(** The scale solved from a quantile and a log ratio in the reference
    ranges. *)
Lemma reference_scale (z l s : R) :
  - (1.2935) < z < - (1.2926) -> 1.1992 < l < 1.1993 ->
  0 <= s -> s * s = z ^ 2 + 2 * l ->
  0.7242 < z + s < 0.7248.
Proof.
  intros [Hz1 Hz2] [Hl1 Hl2] Hs Hsq. simpl in Hsq.
  assert (Hpos : 0 < z + s).
  { destruct (Rlt_or_le 0 (z + s)) as [H | H]; [exact H | exfalso].
    assert (0 <= (- z - s) * (- z + s)) by (apply Rmult_le_pos; lra). nra. }
  set (sg := z + s) in *.
  assert (Hid : sg * (sg - 2 * z) = 2 * l) by (unfold sg; nra).
  split.
  - destruct (Rlt_or_le 0.7242 sg) as [H | H]; [exact H | exfalso].
    assert (sg * (sg - 2 * z) <= 0.7242 * (0.7242 + 2 * 1.2935)).
    { apply Rmult_le_compat; lra. }
    lra.
  - destruct (Rlt_or_le sg 0.7248) as [H | H]; [exact H | exfalso].
    assert (0.7248 * (0.7248 + 2 * 1.2926) <= sg * (sg - 2 * z)).
    { apply Rmult_le_compat; lra. }
    lra.
Qed.

(** The standardized new threshold. *)
Lemma reference_u (sg l2 u : R) :
  0.7242 < sg < 0.7248 -> 1.1280 < l2 < 1.1281 ->
  u * sg = 0.5 * sg ^ 2 - l2 ->
  - (1.1957) <= u <= - (1.1938).
Proof.
  intros [Hs1 Hs2] [Hl1 Hl2] Hu. simpl in Hu. split.
  - destruct (Rle_or_lt (- (1.1957)) u) as [H | H]; [exact H | exfalso]. nra.
  - destruct (Rle_or_lt u (- (1.1938))) as [H | H]; [exact H | exfalso]. nra.
Qed.

(** C3: on the reference example the fitted location is within 0.001 of
    10.4506, the fitted scale within 0.001 of 0.7245, and the poverty rate
    at the threshold 14545 within 0.05 of 11.61 (the routines of SciPy
    being exact). *)
Theorem reference_example (scipy : Scipy) :
  exact scipy ->
  exists mu sigma v,
    find_params scipy (__init__ 44937 13545 9.8) = Ok (mu, sigma) /\
    Rabs (mu - 10.4506) <= 0.001 /\
    Rabs (sigma - 0.7245) <= 0.001 /\
    count_poverty scipy (__init__ 44937 13545 9.8) 14545 = Ok v /\
    Rabs (v - 11.61) <= 0.05.
Proof.
  intros Hex.
  set (self := __init__ 44937 13545 9.8).
  set (z := fsolve scipy equation 0 (poverty self)).
  assert (Hq : norm.cdf z = 9.8 / 100).
  { apply (fsolve_quantile _ Hex). simpl. lra. }
  pose proof (reference_quantile z Hq) as Hz.
  pose proof ln_income_ratio_bounds as Hl.
  assert (Hr : 0 <= radicand self z).
  { unfold radicand. simpl average_income. simpl poverty_line.
    pose proof (pow2_ge_0 z). lra. }
  pose proof (find_params_ok scipy self z (find_upper_limit_eq _ _)
                ltac:(simpl; lra) ltac:(simpl; lra) Hr) as Hfit.
  pose proof (sqrt_pos (radicand self z)) as Hs0.
  pose proof (sqrt_def _ Hr) as Hsq.
  set (s := sqrt (radicand self z)) in *.
  assert (Hsig : 0.7242 < z + s < 0.7248).
  { apply (reference_scale z (ln (44937 / 13545)) s Hz Hl Hs0). exact Hsq. }
  set (sigma := z + s) in *.
  simpl average_income in Hfit.
  set (mu := ln 44937 - 0.5 * sigma ^ 2) in *.
  pose proof ln_income_bounds as Hla.
  assert (Hmu : 10.4502 < mu < 10.4510).
  { unfold mu. simpl. destruct Hsig. split; nra. }
  pose proof ln_new_ratio_bounds as Hl2.
  set (u := (ln 14545 - mu) / sigma).
  assert (Hu : - (1.1957) <= u <= - (1.1938)).
  { apply (reference_u sigma (ln (44937 / 14545)) u Hsig Hl2).
    unfold u, mu. rewrite ln_div by lra. field. lra. }
  destruct cdf_reference_bounds as [_ [_ [Hc1 Hc2]]].
  pose proof (cdf_le _ _ (proj1 Hu)) as Hlo. pose proof (cdf_le _ _ (proj2 Hu)) as Hhi.
  exists mu, sigma, (round (norm.cdf u) 4 * 100).
  split; [exact Hfit |].
  split; [apply Rabs_le; lra |].
  split; [apply Rabs_le; lra |].
  split.
  - apply (count_poverty_exact _ Hex); [exact Hfit | lra | lra |].
    fold u. unfold quad_reach. lra.
  - pose proof (round_near (norm.cdf u) 4) as Hn. apply abs_le_inv in Hn.
    simpl in Hn. apply Rabs_le. lra.
Qed.

Lemma reference_example_witness :
  exists mu sigma v,
    find_params exact_scipy (__init__ 44937 13545 9.8) = Ok (mu, sigma) /\
    Rabs (mu - 10.4506) <= 0.001 /\
    Rabs (sigma - 0.7245) <= 0.001 /\
    count_poverty exact_scipy (__init__ 44937 13545 9.8) 14545 = Ok v /\
    Rabs (v - 11.61) <= 0.05.
Proof.
  exact (reference_example exact_scipy exact_scipy_exact).
Defined.

(** X1: which exception [find_params] raises.  It returns parameters
    exactly when income and threshold are positive and the radicand is not
    negative; it raises [ZeroDivisionError] exactly when the threshold is
    0, and [ValueError] in every other case. *)
Theorem find_params_outcomes (scipy : Scipy) (self : HackParams) :
  let z := fsolve scipy equation 0 (poverty self) in
  let valid := 0 < average_income self /\ 0 < poverty_line self /\ 0 <= radicand self z in
  ((exists mu sigma, find_params scipy self = Ok (mu, sigma)) <-> valid) /\
  (find_params scipy self = Raise ZeroDivisionError <-> poverty_line self = 0) /\
  (find_params scipy self = Raise ValueError <-> poverty_line self <> 0 /\ ~ valid).
Proof.
  intros z valid.
  assert (Hok : valid -> exists mu sigma, find_params scipy self = Ok (mu, sigma)).
  { intros [Ha [Ht Hr]]. eexists. eexists.
    exact (find_params_ok scipy self z (find_upper_limit_eq _ _) Ha Ht Hr). }
  assert (Hinv : forall mu sigma, find_params scipy self = Ok (mu, sigma) -> valid).
  { intros mu sigma Hfit.
    destruct (find_params_inv _ _ _ _ Hfit) as [z' [Hz' [Ha [Ht [Hr _]]]]].
    rewrite find_upper_limit_eq in Hz'. injection Hz' as <-. repeat split; assumption. }
  assert (Hzero : poverty_line self = 0 -> find_params scipy self = Raise ZeroDivisionError).
  { intros H0. unfold find_params. rewrite find_upper_limit_eq. cbn [bind].
    rewrite H0, truediv_zero. reflexivity. }
  assert (Hval : poverty_line self <> 0 -> ~ valid ->
                 find_params scipy self = Raise ValueError).
  { intros Ht Hnv. unfold find_params. rewrite find_upper_limit_eq. cbn [bind].
    rewrite truediv_ok by exact Ht. cbn [bind].
    destruct (Rlt_or_le 0 (average_income self / poverty_line self)) as [Hq | Hq];
      [| rewrite log_error by exact Hq; reflexivity].
    rewrite log_ok by exact Hq. cbn [bind]. fold z.
    change (z ^ 2 + 2 * ln (average_income self / poverty_line self))
      with (radicand self z).
    destruct (Rlt_or_le (radicand self z) 0) as [Hr | Hr];
      [rewrite sqrt_error by exact Hr; reflexivity |].
    rewrite sqrt_ok by exact Hr. cbn [bind].
    destruct (Rlt_or_le 0 (average_income self)) as [Ha | Ha];
      [| rewrite log_error by exact Ha; reflexivity].
    exfalso. apply Hnv. repeat split; try assumption.
    destruct (Rlt_or_le 0 (poverty_line self)) as [Hp | Hp]; [exact Hp | exfalso].
    assert (Hn : / poverty_line self < 0) by (apply Rinv_lt_0_compat; lra).
    unfold Rdiv in Hq. nra. }
  split; [| split].
  - split; [intros [mu [sigma H]]; exact (Hinv _ _ H) | exact Hok].
  - split; [| exact Hzero]. intros H.
    destruct (Req_dec (poverty_line self) 0) as [H0 | Hn]; [exact H0 | exfalso].
    destruct (classic valid) as [Hv | Hv].
    + destruct (Hok Hv) as [mu [sigma Hfit]]. congruence.
    + rewrite (Hval Hn Hv) in H. discriminate.
  - split.
    + intros H. split.
      * intros H0. rewrite (Hzero H0) in H. discriminate.
      * intros Hv. destruct (Hok Hv) as [mu [sigma Hfit]]. congruence.
    + intros [Hn Hv]. exact (Hval Hn Hv).
Qed.

(** X2: which exception [count_poverty] raises.  An exception of the fit
    is passed on unchanged; after a successful fit the call raises
    exactly when the new threshold is not positive, the exception is then
    the [ValueError] of [math.log], and with a positive threshold it
    returns a number, also when the fitted scale is 0: the division by
    the scale is a [numpy.float64] division and raises nothing. *)
Theorem count_poverty_outcomes (scipy : Scipy) (self : HackParams) (new_line : R) :
  (forall e, find_params scipy self = Raise e ->
     count_poverty scipy self new_line = Raise e) /\
  (forall mu sigma, find_params scipy self = Ok (mu, sigma) ->
     (count_poverty scipy self new_line = Raise ValueError <-> new_line <= 0) /\
     (forall e, count_poverty scipy self new_line = Raise e -> e = ValueError) /\
     ((exists v, count_poverty scipy self new_line = Ok v) <-> 0 < new_line)).
Proof.
  split; [intros e H; apply find_params_error; exact H |].
  intros mu sigma Hfit.
  destruct (Rlt_or_le 0 new_line) as [Hn | Hn].
  - rewrite (count_poverty_value _ _ _ _ _ Hfit Hn).
    split; [| split].
    + split; [intros E; discriminate E | intros H; lra].
    + intros e E. discriminate E.
    + split; [intros _; exact Hn | intros _; eexists; reflexivity].
  - rewrite (count_poverty_bad_line _ _ _ _ _ Hfit Hn).
    split; [| split].
    + split; [intros _; exact Hn | reflexivity].
    + intros e E. injection E as <-. reflexivity.
    + split; [intros [v E]; discriminate E | intros F; lra].
Qed.

(** X3: the fitted lognormal distribution has the average income as its
    mean: [exp (mu + sigma^2 / 2) = average_income]. *)
Theorem fitted_mean (scipy : Scipy) (self : HackParams) (mu sigma : R) :
  find_params scipy self = Ok (mu, sigma) ->
  exp (mu + sigma ^ 2 / 2) = average_income self.
Proof.
  intros Hfit.
  destruct (find_params_inv _ _ _ _ Hfit) as [z [_ [Ha [_ [_ [_ Hmu]]]]]].
  replace (mu + sigma ^ 2 / 2) with (ln (average_income self)) by (rewrite Hmu; lra).
  apply exp_ln. exact Ha.
Qed.

Lemma fitted_mean_witness :
  exists mu sigma,
    find_params exact_scipy (__init__ 1 2 1) = Ok (mu, sigma) /\
    exp (mu + sigma ^ 2 / 2) = average_income (__init__ 1 2 1).
Proof.
  destruct negative_fit as [mu [sigma [Hfit _]]].
  exists mu, sigma. split; [exact Hfit |].
  exact (fitted_mean exact_scipy (__init__ 1 2 1) mu sigma Hfit).
Defined.

(** X4: at the original threshold, when the fitted scale is at least
    0.000001 in magnitude, the standardized variable [u] of
    [count_poverty] is the quantile [find_upper_limit] returned, whatever
    the root finder and the quadrature compute. *)
Theorem threshold_is_quantile (scipy : Scipy) (self : HackParams) (z : R) (fr : frame) :
  find_upper_limit scipy self = Ok z ->
  count_poverty_frame scipy self (poverty_line self) = Ok fr ->
  / 1000000 <= Rabs (l_sigma fr) ->
  l_u fr = at_ z.
Proof.
  intros Hz Hfr Hm.
  destruct (count_poverty_frame_inv _ _ _ _ Hfr) as [Hfit [_ [_ [Hu _]]]].
  assert (Hs : l_sigma fr <> 0).
  { intros H0. rewrite H0, Rabs_R0 in Hm. lra. }
  rewrite Hu, (true_divide_finite _ _ Hs). f_equal.
  exact (standardized_threshold _ _ _ _ _ Hz Hfit Hs).
Qed.

Lemma threshold_is_quantile_witness :
  exists fr,
    count_poverty_frame exact_scipy (__init__ 2 1 50) (poverty_line (__init__ 2 1 50)) = Ok fr /\
    l_u fr = at_ 0.
Proof.
  destruct (median_fit exact_scipy eq_refl) as [sigma [Hz [Hfit Hs]]].
  pose proof (count_poverty_frame_ok exact_scipy (__init__ 2 1 50) 1 _ _ Hfit
                ltac:(lra)) as Hfr.
  cbv zeta in Hfr.
  eexists. split; [exact Hfr |].
  apply (threshold_is_quantile exact_scipy (__init__ 2 1 50) 0 _ Hz Hfr).
  simpl l_sigma. rewrite Rabs_pos_eq by lra. lra.
Defined.

(** X5: [equation] has a root in [x] exactly when the value is strictly
    between 0 and 1, and it never has two. *)
Theorem equation_root (value : R) :
  ((exists x, equation x value = 0) <-> 0 < value < 1) /\
  (forall x y, equation x value = 0 -> equation y value = 0 -> x = y).
Proof.
  unfold equation. split; [split |].
  - intros [x Hx]. pose proof (cdf_bounds x). lra.
  - intros Hv. destruct (cdf_quantile value Hv) as [z Hz]. exists z. lra.
  - intros x y Hx Hy. apply cdf_inj. lra.
Qed.

(** X6: the integral of [integrand] over the whole line is
    [sqrt (2 pi)], the constant [count_poverty] divides by. *)
Theorem integrand_total_mass :
  is_integral integrand minus_inf plus_inf (sqrt (2 * PI)).
Proof.
  exists erf_like. split; [exact erf_like_deriv |].
  exists (- half_mass), half_mass.
  split; [exact erf_like_limit_neg |]. split; [exact erf_like_limit |].
  unfold half_mass. field.
Qed.




Lemma positive_fit (scipy : Scipy) (a t p : R) :
  0 < t -> t < a ->
  exists mu sigma, find_params scipy (__init__ a t p) = Ok (mu, sigma) /\ 0 < sigma.
Proof.
  intros Ht Hta.
  assert (Hr : 0 <= radicand (__init__ a t p) (fsolve scipy equation 0 (p / 100))).
  { apply radicand_nonneg. simpl. lra. }
  pose proof (find_params_ok scipy (__init__ a t p) _ (find_upper_limit_eq _ _)
                ltac:(simpl; lra) ltac:(simpl; lra) Hr) as Hfit.
  eexists. eexists. split; [exact Hfit |].
  apply (fit_scale_positive scipy (__init__ a t p) _ _ Hfit). simpl. exact Hta.
Qed.




(** X9: for a fixed income above a fixed threshold, a larger poverty
    rate gives a larger fitted scale and a smaller fitted location (the
    root finder being exact). *)
Theorem scale_grows_with_rate (scipy : Scipy) (a t p1 p2 mu1 s1 mu2 s2 : R) :
  exact scipy ->
  0 < t -> t < a -> 0 < p1 -> p1 < p2 -> p2 < 100 ->
  find_params scipy (__init__ a t p1) = Ok (mu1, s1) ->
  find_params scipy (__init__ a t p2) = Ok (mu2, s2) ->
  s1 < s2 /\ mu2 < mu1.
Proof.
  intros Hex Ht Hta Hp1 Hp12 Hp2 Hf1 Hf2.
  pose proof (fit_scale_positive _ _ _ _ Hf1 ltac:(simpl; lra)) as Hs1.
  pose proof (fit_scale_positive _ _ _ _ Hf2 ltac:(simpl; lra)) as Hs2.
  destruct (find_params_inv _ _ _ _ Hf1) as [z1 [Hz1 [Ha [_ [Hr1 [Hsig1 Hmu1]]]]]].
  destruct (find_params_inv _ _ _ _ Hf2) as [z2 [Hz2 [_ [_ [Hr2 [Hsig2 Hmu2]]]]]].
  rewrite find_upper_limit_eq in Hz1, Hz2. injection Hz1 as Hz1. injection Hz2 as Hz2.
  assert (Hq1 : norm.cdf z1 = p1 / 100).
  { rewrite <- Hz1. apply (fsolve_quantile _ Hex). simpl. lra. }
  assert (Hq2 : norm.cdf z2 = p2 / 100).
  { rewrite <- Hz2. apply (fsolve_quantile _ Hex). simpl. lra. }
  assert (Hz : z1 < z2).
  { destruct (Rlt_or_le z1 z2) as [H | H]; [exact H | exfalso].
    pose proof (cdf_le _ _ H). lra. }
  unfold radicand in *. simpl average_income in *. simpl poverty_line in *.
  set (l := ln (a / t)) in *.
  pose proof (sqrt_def _ Hr1) as Hq1'. pose proof (sqrt_def _ Hr2) as Hq2'.
  pose proof (sqrt_pos (z1 ^ 2 + 2 * l)) as Hp1'.
  pose proof (sqrt_pos (z2 ^ 2 + 2 * l)) as Hp2'.
  set (r1 := sqrt (z1 ^ 2 + 2 * l)) in *. set (r2 := sqrt (z2 ^ 2 + 2 * l)) in *.
  assert (Hid1 : s1 * (s1 - 2 * z1) = 2 * l) by (subst s1; nra).
  assert (Hid2 : s2 * (s2 - 2 * z2) = 2 * l) by (subst s2; nra).
  assert (Hlt : s1 < s2).
  { destruct (Rlt_or_le s1 s2) as [H | H]; [exact H | exfalso].
    assert (Hf : 0 < s2 - 2 * z2).
    { destruct (Rlt_or_le 0 (s2 - 2 * z2)) as [G | G]; [exact G | exfalso]. nra. }
    assert (s2 * (s2 - 2 * z2) <= s1 * (s2 - 2 * z2))
      by (apply Rmult_le_compat_r; lra).
    assert (s1 * (s2 - 2 * z2) < s1 * (s1 - 2 * z1))
      by (apply Rmult_lt_compat_l; lra).
    lra. }
  split; [exact Hlt |]. rewrite Hmu1, Hmu2. simpl. nra.
Qed.

Lemma scale_grows_with_rate_witness :
  exists mu1 s1 mu2 s2,
    find_params exact_scipy (__init__ 2 1 40) = Ok (mu1, s1) /\
    find_params exact_scipy (__init__ 2 1 50) = Ok (mu2, s2) /\
    s1 < s2 /\ mu2 < mu1.
Proof.
  destruct (positive_fit exact_scipy 2 1 40 ltac:(lra) ltac:(lra)) as [mu1 [s1 [Hf1 _]]].
  destruct (positive_fit exact_scipy 2 1 50 ltac:(lra) ltac:(lra)) as [mu2 [s2 [Hf2 _]]].
  exists mu1, s1, mu2, s2. split; [exact Hf1 |]. split; [exact Hf2 |].
  apply (scale_grows_with_rate exact_scipy 2 1 40 50 mu1 s1 mu2 s2 exact_scipy_exact);
    try lra; assumption.
Defined.

(** X10: [exp mu] is the median of the fitted distribution: at the
    threshold [exp mu] the returned rate is exactly 50, for a scale of
    either sign (the quadrature being exact). *)
Theorem median_threshold (scipy : Scipy) (self : HackParams) (mu sigma : R) :
  exact scipy ->
  find_params scipy self = Ok (mu, sigma) -> sigma <> 0 ->
  count_poverty scipy self (exp mu) = Ok 50.
Proof.
  intros Hex Hfit Hs.
  assert (Hu : (ln (exp mu) - mu) / sigma = 0) by (rewrite ln_exp; field; exact Hs).
  rewrite (count_poverty_exact _ Hex _ _ _ _ Hfit (exp_pos mu) Hs), Hu
    by (rewrite Hu; unfold quad_reach; lra).
  rewrite cdf_0. replace (1 / 2) with (IZR 5000 / 10 ^ 4) by (simpl; lra).
  rewrite round_decimal. f_equal. simpl. lra.
Qed.

Lemma median_threshold_witness :
  exists mu sigma,
    find_params exact_scipy (__init__ 1 2 1) = Ok (mu, sigma) /\
    count_poverty exact_scipy (__init__ 1 2 1) (exp mu) = Ok 50.
Proof.
  destruct negative_fit as [mu [sigma [Hfit Hs]]].
  exists mu, sigma. split; [exact Hfit |].
  apply (median_threshold exact_scipy (__init__ 1 2 1) mu sigma exact_scipy_exact Hfit).
  lra.
Defined.


